(** * Bucket sync-log trim coordination (rgw_sync_log_trim.cc)

    A shallow embedding of the watch/notify api that gateways use to share
    their bucket trim counters: the wire encoding of [TrimCounters::Request],
    [TrimCounters::Response] and [TrimCounters::BucketCounter], the notify
    handler that serves the counters, [BucketTrimWatcher] and the
    [BucketTrimManager] entry points. *)

From Stdlib Require Import ZArith Lia.
From Stdlib.Strings Require Import Byte String.
From stdpp Require Import gmap strings list sorting.

Local Open Scope Z_scope.

(** ** Buffers and the decoding iterator *)

Module Buffer.

(** A [bufferlist] is a sequence of bytes. *)
Definition bufferlist := list byte.

#[global] Instance byte_eq_dec : EqDecision byte := Byte.byte_eq_dec.

(** Modelled from the spec: [bufferlist::iterator] (include/buffer.h is not
    part of the sources).  The iterator refers to the buffer it walks over
    and holds an offset into it; decoding "must never read past the supplied
    buffer". *)
Record iterator := Iterator { it_bl : bufferlist; it_off : nat }.

Definition begin (bl : bufferlist) : iterator := Iterator bl 0.

Definition get_off (p : iterator) : nat := it_off p.
Definition get_remaining (p : iterator) : nat := length (it_bl p) - it_off p.

(** Modelled from the spec: the two decode failures named in section 7.  In
    the source both arrive as a [buffer::error], which is what
    [handle_notify] catches. *)
Inductive error := ProtocolVersionError | MalformedMessageError.

Inductive result (A : Type) :=
| Ok (a : A)
| Throw (e : error).
Arguments Ok {A} a.
Arguments Throw {A} e.

(** A decoder advances the iterator it is given by reference, and either
    returns or throws; the iterator survives the throw. *)
Definition dec (A : Type) := iterator -> result A * iterator.

Definition ret {A} (a : A) : dec A := fun p => (Ok a, p).
Definition throw {A} (e : error) : dec A := fun p => (Throw e, p).
Definition bind {A B} (m : dec A) (k : A -> dec B) : dec B :=
  fun p => match m p with
           | (Ok a, p') => k a p'
           | (Throw e, p') => (Throw e, p')
           end.

End Buffer.
Import Buffer.

Notation "'do' x <- m ; k" := (bind m (fun x => k))
  (at level 10, x name, m at level 100, k at level 200).
Notation "m ;;; k" := (bind m (fun _ => k))
  (at level 100, k at level 200, right associativity).

(** ** Primitive encoders (include/encoding.h) *)

Module Encoding.

Definition byte_of_Z (x : Z) : byte :=
  match Byte.of_N (Z.to_N (x mod 256)) with
  | Some b => b
  | None => x00
  end.

Definition Z_of_byte (b : byte) : Z := Z.of_N (Byte.to_N b).

(** Little-endian layout of the [w] low-order bytes of [x]. *)
Fixpoint le_bytes (w : nat) (x : Z) : bufferlist :=
  match w with
  | O => []
  | S w' => byte_of_Z (x mod 256) :: le_bytes w' (x / 256)
  end.

Fixpoint le_value (bs : bufferlist) : Z :=
  match bs with
  | [] => 0
  | b :: bs' => Z_of_byte b + 256 * le_value bs'
  end.

(** Modelled from the spec: [bufferlist::iterator::copy] (include/buffer.h is
    not part of the sources): hands out the next [n] bytes, or fails on
    truncated input without moving. *)
Definition copy (n : nat) : dec bufferlist :=
  fun p =>
    if decide (it_off p + n <= length (it_bl p))%nat
    then (Ok (take n (drop (it_off p) (it_bl p))),
          Iterator (it_bl p) (it_off p + n))
    else (Throw MalformedMessageError, p).

(** Modelled from the spec: [bufferlist::iterator::advance]. *)
Definition advance (n : nat) : dec unit :=
  fun p =>
    if decide (it_off p + n <= length (it_bl p))%nat
    then (Ok tt, Iterator (it_bl p) (it_off p + n))
    else (Throw MalformedMessageError, p).

(** Reading [get_off] and [get_remaining] off the iterator being decoded. *)
Definition tell : dec nat := fun p => (Ok (get_off p), p).
Definition remaining : dec nat := fun p => (Ok (get_remaining p), p).

(** Modelled from the spec: the integer encoders of include/encoding.h
    ([__u8], [uint16_t], [__u32] and [int32_t], all little-endian). *)
Definition encode_u8 (x : Z) : bufferlist := le_bytes 1 x.
Definition encode_u16 (x : Z) : bufferlist := le_bytes 2 x.
Definition encode_u32 (x : Z) : bufferlist := le_bytes 4 x.
Definition encode_int (x : Z) : bufferlist := le_bytes 4 x.

Definition decode_le (w : nat) : dec Z :=
  do bs <- copy w; ret (le_value bs).

Definition decode_u8 : dec Z := decode_le 1.
Definition decode_u16 : dec Z := decode_le 2.
Definition decode_u32 : dec Z := decode_le 4.

(** Two's complement reading of a 32-bit pattern. *)
Definition to_int32 (u : Z) : Z :=
  if u <? 2 ^ 31 then u else u - 2 ^ 32.

Definition decode_int : dec Z :=
  do u <- decode_le 4; ret (to_int32 u).

(** Modelled from the spec: the [std::string] encoder of include/encoding.h,
    a 32-bit length followed by the characters. *)
Definition encode_string (s : string) : bufferlist :=
  let bs := list_byte_of_string s in
  encode_u32 (Z.of_nat (length bs)) ++ bs.

Definition decode_string : dec string :=
  do len <- decode_u32;
  do bs <- copy (Z.to_nat len);
  ret (string_of_list_byte bs).

(** Modelled from the spec: the [std::vector] encoder of include/encoding.h,
    a 32-bit element count followed by the elements in order. *)
Definition encode_vector {A} (enc : A -> bufferlist) (v : list A) : bufferlist :=
  encode_u32 (Z.of_nat (length v)) ++ concat (map enc v).

Fixpoint decode_n {A} (d : dec A) (n : nat) : dec (list A) :=
  match n with
  | O => ret []
  | S n' => do x <- d; do xs <- decode_n d n'; ret (x :: xs)
  end.

Definition decode_vector {A} (d : dec A) : dec (list A) :=
  do n <- decode_u32; decode_n d (Z.to_nat n).

(** Modelled from the spec: [ENCODE_START(v, compat, bl)] ...
    [ENCODE_FINISH(bl)] of include/encoding.h: the version and compat tag
    pair, then the length of the payload so that a reader can skip what a
    later revision appended. *)
Definition ENCODE (v compat : Z) (payload : bufferlist) : bufferlist :=
  encode_u8 v ++ encode_u8 compat
    ++ encode_u32 (Z.of_nat (length payload)) ++ payload.

(** Modelled from the spec: [DECODE_START(v, p)] ... [DECODE_FINISH(p)] of
    include/encoding.h.  A compat tag above [v] is refused before anything
    else of the struct is read; a length that overruns the buffer, or a body
    that ran past the declared end, is malformed; bytes of the struct that
    the body left unread are skipped. *)
Definition DECODE {A} (v : Z) (body : dec A) : dec A :=
  do struct_v <- decode_u8;
  do struct_compat <- decode_u8;
  if v <? struct_compat then throw ProtocolVersionError else
  do struct_len <- decode_u32;
  do rem <- remaining;
  if Z.of_nat rem <? struct_len then throw MalformedMessageError else
  do off <- tell;
  let struct_end := (off + Z.to_nat struct_len)%nat in
  do x <- body;
  do off' <- tell;
  if (struct_end <? off')%nat then throw MalformedMessageError else
  (advance (struct_end - off') ;;; ret x).

End Encoding.
Import Encoding.

(** ** The trim counters messages *)

Module TrimCounters.

(** counter for a single bucket *)
Record BucketCounter := mkBucketCounter { bucket : string; count : Z }.

(** request bucket trim counters from peer gateways *)
Record Request := mkRequest { max_buckets : Z }.

(** return the current bucket trim counters *)
Record Response := mkResponse { bucket_counters : list BucketCounter }.

#[global] Instance BucketCounter_eq_dec : EqDecision BucketCounter.
Proof. solve_decision. Defined.

(** [BucketCounter::encode]: no versioning to save space. *)
Definition encode_BucketCounter (c : BucketCounter) : bufferlist :=
  encode_string (bucket c) ++ encode_int (count c).

Definition decode_BucketCounter : dec BucketCounter :=
  do b <- decode_string;
  do n <- decode_int;
  ret (mkBucketCounter b n).

Definition encode_Request (r : Request) : bufferlist :=
  ENCODE 1 1 (encode_u16 (max_buckets r)).

Definition decode_Request : dec Request :=
  DECODE 1 (do m <- decode_u16; ret (mkRequest m)).

Definition encode_Response (r : Response) : bufferlist :=
  ENCODE 1 1 (encode_vector encode_BucketCounter (bucket_counters r)).

Definition decode_Response : dec Response :=
  DECODE 1 (do v <- decode_vector decode_BucketCounter; ret (mkResponse v)).

(** The values the C++ types can hold and the 32-bit length fields can
    describe. *)
Definition uint16_range (x : Z) : Prop := 0 <= x < 2 ^ 16.
Definition int32_range (x : Z) : Prop := - 2 ^ 31 <= x < 2 ^ 31.
Definition u32_length (n : nat) : Prop := Z.of_nat n < 2 ^ 32.

Definition wf_BucketCounter (c : BucketCounter) : Prop :=
  int32_range (count c) /\ u32_length (String.length (bucket c)).

Definition wf_Request (r : Request) : Prop := uint16_range (max_buckets r).

Definition wf_Response (r : Response) : Prop :=
  Forall wf_BucketCounter (bucket_counters r)
  /\ u32_length (length (bucket_counters r))
  /\ u32_length (length (encode_vector encode_BucketCounter (bucket_counters r))).

#[global] Instance wf_BucketCounter_dec c : Decision (wf_BucketCounter c).
Proof. unfold wf_BucketCounter, int32_range, u32_length. apply _. Defined.

#[global] Instance wf_Request_dec r : Decision (wf_Request r).
Proof. unfold wf_Request, uint16_range. apply _. Defined.

#[global] Instance wf_Response_dec r : Decision (wf_Response r).
Proof. unfold wf_Response, u32_length. apply _. Defined.

End TrimCounters.
Import TrimCounters.

(** ** The bounded key counter (common/bounded_key_counter.h) *)

Module BoundedKeyCounter.

(** Modelled from the spec: [BoundedKeyCounter<std::string, int>]
    (common/bounded_key_counter.h is not part of the sources).  Section 3: a
    mapping from bucket key to count that never holds more than [bound]
    distinct keys. *)
Record t := mk { bound : nat; counters : gmap string Z }.

Definition new (bound : nat) : t := mk bound ∅.

Definition size (c : t) : nat := base.size (counters c).

(** Modelled from the spec: the entry to give up when a new key would exceed
    the capacity is chosen by an "implementation-defined policy
    (deterministic, but not specified further)"; the policy is left open. *)
Class EvictionPolicy := victim : gmap string Z -> option string.

(** Inserting [key] has to make room first. *)
Definition evicts (key : string) (c : t) : bool :=
  bool_decide (counters c !! key = None)
  && bool_decide (bound c <= size c)%nat.

Definition evict `{EvictionPolicy} (m : gmap string Z) : gmap string Z :=
  match victim m with
  | Some k => delete k m
  | None => m
  end.

(** Modelled from the spec: "[insert(key)] increments the key's count by 1
    (creating it at count 1 if absent, possibly evicting another entry
    first)". *)
Definition insert `{EvictionPolicy} (key : string) (c : t) : t :=
  match counters c !! key with
  | Some n => mk (bound c) (<[key := n + 1]> (counters c))
  | None =>
      if evicts key c then
        let m := evict (counters c) in
        if decide (base.size m < bound c)%nat
        then mk (bound c) (<[key := 1]> m)
        else mk (bound c) m
      else mk (bound c) (<[key := 1]> (counters c))
  end.

(** Descending by count. *)
Definition value_greater (x y : string * Z) : Prop := x.2 >= y.2.

#[global] Instance value_greater_dec : RelDecision value_greater.
Proof. intros x y. unfold value_greater. apply _. Defined.

(** Modelled from the spec: "[get_highest(n)] returns the n entries with the
    largest counts, ordered descending by count; ties broken by a consistent,
    deterministic rule". *)
Definition get_highest (n : nat) (c : t) : list (string * Z) :=
  take n (merge_sort value_greater (map_to_list (counters c))).

End BoundedKeyCounter.

(** ** Serving the counters *)

(** server interface to query the hottest buckets *)
Class Server (Srv : Type) :=
  get_bucket_counters : Srv -> Z -> list BucketCounter -> list BucketCounter.

(** The notify types of the watch/notify api. *)
Definition NotifyTrimCounters : Z := 0.

(** The notify handlers that exist: [TrimCounters::Handler] is the only class
    deriving from [TrimNotifyHandler]. *)
Inductive TrimNotifyHandler := TrimCountersHandler.

(** The outcome of a handler: it returns or throws, having advanced [input]
    and appended to [output], both passed by reference. *)
Definition handled : Type := result unit * iterator * bufferlist.

(** [TrimCounters::Handler::handle] *)
Definition Handler_handle {Srv} `{!Server Srv} (server : Srv)
    (input : iterator) (output : bufferlist) : handled :=
  match decode_Request input with
  | (Throw e, input) => (Throw e, input, output)
  | (Ok request, input) =>
      let count := Z.min (max_buckets request) 128 in
      let response := mkResponse (get_bucket_counters server count []) in
      (Ok tt, input, output ++ encode_Response response)
  end.

(** Virtual dispatch of [TrimNotifyHandler::handle]. *)
Definition TrimNotifyHandler_handle {Srv} `{!Server Srv} (h : TrimNotifyHandler)
    (server : Srv) (input : iterator) (output : bufferlist) : handled :=
  match h with
  | TrimCountersHandler => Handler_handle server input output
  end.

(** ** The rados watcher for bucket trim notifications *)

(** The error numbers of errno.h that the watcher compares against. *)
Definition ENOENT : Z := 2.
Definition EEXIST : Z := 17.
Definition ENOTCONN : Z := 107.

(** What the watcher asks of the object store; an implementation answers
    every call with a result code and its next state.  [watch2] also answers
    with the value it stores through its handle pointer. *)
Class Librados (R : Type) := {
  get_raw_obj_ref : R -> Z * R;
  ioctx_watch2 : R -> Z * Z * R;
  ioctx_unwatch2 : Z -> R -> Z * R;
  ioctx_create : bool -> R -> Z * R;
  ioctx_close : R -> R;
  ioctx_notify_ack : Z -> Z -> bufferlist -> R -> Z * R;
}.

(** Modelled from the spec: [WRITE_RAW_ENCODER] of include/encoding.h copies
    the object representation of the enum; its size is fixed by the
    platform. *)
Class Platform := sizeof_TrimNotifyType : nat.

Definition decode_TrimNotifyType `{Platform} : dec Z :=
  decode_le sizeof_TrimNotifyType.

Definition encode_TrimNotifyType `{Platform} (type : Z) : bufferlist :=
  le_bytes sizeof_TrimNotifyType type.

(** The calls the watcher makes, in the order it makes them. *)
Inductive event :=
| GetRawObjRef
| Watch2
| Unwatch2 (handle : Z)
| Create (exclusive : bool)
| Close
| InvokeHandler (type : Z)
| NotifyAck (notify_id cookie : Z) (reply : bufferlist).

#[global] Instance event_eq_dec : EqDecision event.
Proof. solve_decision. Defined.

Module BucketTrimWatcher.
Section Watcher.
Context {R : Type} `{!Librados R} `{!Platform}.
Context {Srv : Type} `{!Server Srv}.

(** The members of the class: [store] stands for the store together with
    the ioctx of [ref].  [trace] is not a member; it keeps the calls made so
    far, so that statements can speak about them. *)
Record t := mk {
  store : R;
  handle : Z;
  handlers : gmap Z TrimNotifyHandler;
  trace : list event;
}.

(** The constructor registers the handler of [NotifyTrimCounters]. *)
Definition new (store : R) : t :=
  mk store 0 {[ NotifyTrimCounters := TrimCountersHandler ]} [].

(** Each call on the store is answered by the store and entered in the
    trace. *)
Definition do_get_raw_obj_ref (w : t) : Z * t :=
  let '(r, s) := get_raw_obj_ref (store w) in
  (r, mk s (handle w) (handlers w) (trace w ++ [GetRawObjRef])).

Definition do_watch2 (w : t) : Z * t :=
  let '(r, h, s) := ioctx_watch2 (store w) in
  (r, mk s h (handlers w) (trace w ++ [Watch2])).

Definition do_unwatch2 (w : t) : Z * t :=
  let '(r, s) := ioctx_unwatch2 (handle w) (store w) in
  (r, mk s (handle w) (handlers w) (trace w ++ [Unwatch2 (handle w)])).

Definition do_create (exclusive : bool) (w : t) : Z * t :=
  let '(r, s) := ioctx_create exclusive (store w) in
  (r, mk s (handle w) (handlers w) (trace w ++ [Create exclusive])).

Definition do_close (w : t) : t :=
  mk (ioctx_close (store w)) (handle w) (handlers w) (trace w ++ [Close]).

Definition do_notify_ack (notify_id cookie : Z) (reply : bufferlist)
    (w : t) : t :=
  let '(_, s) := ioctx_notify_ack notify_id cookie reply (store w) in
  mk s (handle w) (handlers w) (trace w ++ [NotifyAck notify_id cookie reply]).

Definition invoked (type : Z) (w : t) : t :=
  mk (store w) (handle w) (handlers w) (trace w ++ [InvokeHandler type]).

Definition start (w : t) : Z * t :=
  let '(r, w) := do_get_raw_obj_ref w in
  if r <? 0 then (r, w) else
  (* register a watch on the realm's control object *)
  let '(r, w) := do_watch2 w in
  let '(r, w) :=
    if r =? - ENOENT then
      let exclusive := true in
      let '(r, w) := do_create exclusive w in
      if (r =? - EEXIST) || (r =? 0) then do_watch2 w else (r, w)
    else (r, w) in
  if r <? 0 then (r, do_close w) else (0, w).

Definition restart (w : t) : Z * t :=
  let '(_, w) := do_unwatch2 w in
  let '(r, w) := do_watch2 w in
  if r <? 0 then (r, do_close w) else (r, w).

Definition stop (w : t) : t :=
  let '(_, w) := do_unwatch2 w in
  do_close w.

(** respond to bucket trim notifications *)
Definition handle_notify (server : Srv)
    (notify_id cookie notifier_id : Z) (bl : bufferlist) (w : t) : t :=
  if decide (cookie <> handle w) then w else
  let reply : bufferlist := [] in
  let '(reply, w) :=
    (* try *)
    let p := begin bl in
    match decode_TrimNotifyType p with
    | (Ok type, p) =>
        match handlers w !! type with
        | Some handler =>
            let w := invoked type w in
            match TrimNotifyHandler_handle handler server p reply with
            | (Ok _, _, reply) => (reply, w)
            | (Throw e, _, reply) => (* catch *) (reply, w)
            end
        | None => (reply, w)
        end
    | (Throw e, _) => (* catch *) (reply, w)
    end in
  do_notify_ack notify_id cookie reply w.

(** reestablish the watch if it gets disconnected *)
Definition handle_error (cookie err : Z) (w : t) : t :=
  if decide (cookie <> handle w) then w else
  if err =? - ENOTCONN then (restart w).2 else w.

End Watcher.
Arguments t R : clear implicits.
End BucketTrimWatcher.

(** ** The trim manager *)

Module BucketTrimManager.
Section Manager.
Context {R : Type} `{!Librados R} `{!Platform}.
Context `{!BoundedKeyCounter.EvictionPolicy}.

Record Impl := mkImpl {
  (** count frequency of bucket instance entries in the data changes log *)
  counter : BoundedKeyCounter.t;
  (** serve the bucket trim watch/notify api *)
  watcher : BucketTrimWatcher.t R;
}.

Definition new (store : R) (counter_size : nat) : Impl :=
  mkImpl (BoundedKeyCounter.new counter_size) (BucketTrimWatcher.new store).

(** [TrimCounters::Server] interface for watch/notify api.  [count] is not
    negative on the way from [Handler_handle]. *)
Definition Impl_get_bucket_counters (impl : Impl) (count : Z)
    (buckets : list BucketCounter) : list BucketCounter :=
  buckets ++ ((fun kv => mkBucketCounter kv.1 kv.2)
                <$> BoundedKeyCounter.get_highest (Z.to_nat count) (counter impl)).

#[global] Instance Impl_Server : Server Impl := Impl_get_bucket_counters.

Definition init (impl : Impl) : Z * Impl :=
  let '(r, w) := BucketTrimWatcher.start (watcher impl) in
  (r, mkImpl (counter impl) w).

Definition on_bucket_changed (bucket : string) (impl : Impl) : Impl :=
  mkImpl (BoundedKeyCounter.insert bucket (counter impl)) (watcher impl).

End Manager.
Arguments Impl R : clear implicits.
End BucketTrimManager.

(** ** A small object store to run the watcher against *)

Module SimStore.

Definition EACCES : Z := 13.

Record t := mk {
  pool_ok : bool;           (* the log pool can be opened *)
  object_exists : bool;     (* the control object is there *)
  watch_denied : bool;      (* watches are refused with EACCES *)
  next_cookie : Z;
  watching : list Z;
  is_open : bool;
  acks : list (Z * Z * bufferlist);
}.

Definition sim_get_raw_obj_ref (s : t) : Z * t :=
  if pool_ok s
  then (0, mk true (object_exists s) (watch_denied s) (next_cookie s)
              (watching s) true (acks s))
  else (- ENOENT, s).

Definition sim_watch2 (s : t) : Z * Z * t :=
  if watch_denied s then (- EACCES, 0, s)
  else if object_exists s
  then (0, next_cookie s,
        mk (pool_ok s) true false (next_cookie s + 1)
           (next_cookie s :: watching s) (is_open s) (acks s))
  else (- ENOENT, 0, s).

Definition sim_unwatch2 (h : Z) (s : t) : Z * t :=
  if bool_decide (h ∈ watching s)
  then (0, mk (pool_ok s) (object_exists s) (watch_denied s) (next_cookie s)
              (filter (fun c => c <> h) (watching s)) (is_open s) (acks s))
  else (- ENOTCONN, s).

Definition sim_create (exclusive : bool) (s : t) : Z * t :=
  if object_exists s
  then (if exclusive then - EEXIST else 0, s)
  else (0, mk (pool_ok s) true (watch_denied s) (next_cookie s)
              (watching s) (is_open s) (acks s)).

Definition sim_close (s : t) : t :=
  mk (pool_ok s) (object_exists s) (watch_denied s) (next_cookie s)
     (watching s) false (acks s).

Definition sim_notify_ack (notify_id cookie : Z) (reply : bufferlist) (s : t)
    : Z * t :=
  (0, mk (pool_ok s) (object_exists s) (watch_denied s) (next_cookie s)
         (watching s) (is_open s) (acks s ++ [(notify_id, cookie, reply)])).

#[global] Instance sim_Librados : Librados t := {
  get_raw_obj_ref := sim_get_raw_obj_ref;
  ioctx_watch2 := sim_watch2;
  ioctx_unwatch2 := sim_unwatch2;
  ioctx_create := sim_create;
  ioctx_close := sim_close;
  ioctx_notify_ack := sim_notify_ack;
}.

(** The enum is as wide as an [int]. *)
#[global] Instance sim_Platform : Platform := 4%nat.

(** Give up the first entry of the map. *)
#[global] Instance sim_EvictionPolicy : BoundedKeyCounter.EvictionPolicy :=
  fun m => fst <$> head (map_to_list m).

(** A store whose control object does not exist yet. *)
Definition fresh : t := mk true false false 1 [] false [].

(** A store on which [h] is an established watch. *)
Definition watched (h : Z) : t := mk true true false (h + 1) [h] true [].

End SimStore.

(** ** Sample runs *)

Module Samples.

Import BucketTrimManager.

(** A store whose log pool cannot be opened. *)
Definition unreachable : SimStore.t := SimStore.mk false false false 1 [] false [].

(** A manager that has seen a few bucket changes. *)
Definition busy : Impl SimStore.t :=
  foldl (fun i b => on_bucket_changed b i)
    (BucketTrimManager.new SimStore.fresh 8)
    ["a"; "b"; "a"; "c"]%string.

(** The producer of the scenario of section 8. *)
Definition scenario_keys : list string :=
  replicate 10 "bucket1:inst1"%string ++ replicate 3 "bucket2:inst1"%string.

(** A response at the ceiling of 128 entries. *)
Definition full_response : Response :=
  mkResponse (replicate 128 (mkBucketCounter "bucket" 7)).

(** A watcher whose watch is established with handle 5. *)
Definition watching : BucketTrimWatcher.t SimStore.t :=
  BucketTrimWatcher.mk (SimStore.watched 5) 5
    {[ NotifyTrimCounters := TrimCountersHandler ]} [].

(** A store that refuses every watch. *)
Definition denied : SimStore.t := SimStore.mk true true true 1 [] false [].

(** A notification of a type that has no handler. *)
Definition unknown_notify : bufferlist :=
  encode_TrimNotifyType 7 ++ encode_Request (mkRequest 3).

End Samples.

(** ** Vocabulary of the statements *)

(** [d] reads exactly [enc], wherever it lies in a buffer, and returns [x]. *)
Definition decodes {A} (d : dec A) (enc : bufferlist) (x : A) : Prop :=
  forall bl off rest,
    (off <= length bl)%nat ->
    drop off bl = enc ++ rest ->
    d (Iterator bl off) = (Ok x, Iterator bl (off + length enc)).

(** An iterator that has not left its buffer. *)
Definition within (p : iterator) : Prop := (it_off p <= length (it_bl p))%nat.

(** [d] keeps to the buffer it is given, whether it returns or throws. *)
Definition stays_within {A} (d : dec A) : Prop :=
  forall p, within p ->
    it_bl (d p).2 = it_bl p /\ (it_off p <= it_off (d p).2)%nat /\ within (d p).2.

(** The record calls of a producer, oldest first. *)
Definition record_all `{!BoundedKeyCounter.EvictionPolicy}
    (keys : list string) (c : BoundedKeyCounter.t) : BoundedKeyCounter.t :=
  foldl (fun c key => BoundedKeyCounter.insert key c) c keys.

(** None of the record calls had to evict. *)
Fixpoint no_eviction `{!BoundedKeyCounter.EvictionPolicy}
    (keys : list string) (c : BoundedKeyCounter.t) : bool :=
  match keys with
  | [] => true
  | key :: keys' =>
      negb (BoundedKeyCounter.evicts key c)
      && no_eviction keys' (BoundedKeyCounter.insert key c)
  end.

(** Counting without a bound. *)
Definition tally (m : gmap string Z) (keys : list string) : gmap string Z :=
  foldl (fun m k => <[k := default 0 (m !! k) + 1]> m) m keys.

(** How often [key] was recorded. *)
Definition recorded (key : string) (keys : list string) : Z :=
  Z.of_nat (length (filter (fun k => k = key) keys)).

(** The acknowledgements among the calls of a trace. *)
Definition acks (tr : list event) : list bufferlist :=
  omap (fun e => match e with NotifyAck _ _ reply => Some reply | _ => None end) tr.

Definition handler_calls (tr : list event) : list Z :=
  omap (fun e => match e with InvokeHandler type => Some type | _ => None end) tr.

(** ** The life of a watcher *)

(** What happens to a watcher: the calls of its owner and the callbacks
    that librados delivers. *)
Inductive invocation :=
| DoStart
| DoRestart
| DoStop
| OnNotify (notify_id cookie notifier_id : Z) (bl : bufferlist)
| OnError (cookie err : Z).

Module Life.
Section Life.
Context {R : Type} `{!Librados R} `{!Platform}.
Context {Srv : Type} `{!Server Srv}.

Definition deliver (server : Srv) (w : BucketTrimWatcher.t R) (i : invocation)
    : BucketTrimWatcher.t R :=
  match i with
  | DoStart => (BucketTrimWatcher.start w).2
  | DoRestart => (BucketTrimWatcher.restart w).2
  | DoStop => BucketTrimWatcher.stop w
  | OnNotify notify_id cookie notifier_id bl =>
      BucketTrimWatcher.handle_notify server notify_id cookie notifier_id bl w
  | OnError cookie err => BucketTrimWatcher.handle_error cookie err w
  end.

Definition run (server : Srv) (calls : list invocation) (w : BucketTrimWatcher.t R)
    : BucketTrimWatcher.t R :=
  foldl (deliver server) w calls.

End Life.
End Life.

(** The notifications among the things that happen to a watcher. *)
Definition is_notify (i : invocation) : bool :=
  match i with
  | OnNotify _ _ _ _ => true
  | _ => false
  end.

(** The calls that concern the watch itself. *)
Definition subscription_event (e : event) : bool :=
  match e with
  | GetRawObjRef | Watch2 | Unwatch2 _ | Create _ | Close => true
  | InvokeHandler _ | NotifyAck _ _ _ => false
  end.

(** The bytes that the entries of a response take on the wire. *)
Definition entries_size (v : list BucketCounter) : nat :=
  sum_list ((fun c => 8 + String.length (bucket c))%nat <$> v).

(** * Properties *)

(** ** Bytes and little-endian integers *)

Section Bytes.

Lemma Z_of_byte_range b : 0 <= Z_of_byte b < 256.
Proof.
  unfold Z_of_byte. pose proof (Byte.to_N_bounded b). lia.
Qed.

Lemma Z_of_byte_of_Z x : Z_of_byte (byte_of_Z x) = x mod 256.
Proof.
  unfold Z_of_byte, byte_of_Z.
  assert (Hr : 0 <= x mod 256 < 256) by (apply Z.mod_pos_bound; lia).
  destruct (Byte.of_N (Z.to_N (x mod 256))) as [b|] eqn:E.
  - apply Byte.to_of_N in E. rewrite E. lia.
  - apply Byte.of_N_None_iff in E. lia.
Qed.

Lemma length_le_bytes w x : length (le_bytes w x) = w.
Proof. revert x. induction w as [|w IH]; intros x; simpl; [done|]. by rewrite IH. Qed.

Lemma le_value_le_bytes w x : le_value (le_bytes w x) = x mod 256 ^ Z.of_nat w.
Proof.
  revert x. induction w as [|w IH]; intros x.
  - simpl. by rewrite Z.mod_1_r.
  - cbn [le_bytes le_value]. rewrite Z_of_byte_of_Z, IH, Nat2Z.inj_succ, Z.pow_succ_r by lia.
    rewrite Z.mod_mod by lia.
    rewrite (Z.rem_mul_r x 256 (256 ^ Z.of_nat w)) by lia. lia.
Qed.

Lemma le_value_range bs : 0 <= le_value bs < 256 ^ Z.of_nat (length bs).
Proof.
  induction bs as [|b bs IH].
  - simpl. lia.
  - cbn [le_value length]. rewrite Nat2Z.inj_succ, Z.pow_succ_r by lia.
    pose proof (Z_of_byte_range b). nia.
Qed.

Lemma le_value_le_bytes_id w x :
  0 <= x < 256 ^ Z.of_nat w -> le_value (le_bytes w x) = x.
Proof. intros H. rewrite le_value_le_bytes. by apply Z.mod_small. Qed.

Lemma to_int32_encode x :
  int32_range x -> to_int32 (x mod 256 ^ Z.of_nat 4) = x.
Proof.
  unfold int32_range, to_int32. intros H.
  change (256 ^ Z.of_nat 4) with (2 ^ 32).
  destruct (Z.neg_nonneg_cases x) as [Hneg|Hpos].
  - replace (x mod 2 ^ 32) with (x + 2 ^ 32).
    + destruct (Z.ltb_spec (x + 2 ^ 32) (2 ^ 31)); lia.
    + apply Z.mod_unique with (q := -1); lia.
  - rewrite Z.mod_small by lia.
    destruct (Z.ltb_spec x (2 ^ 31)); lia.
Qed.

Lemma length_list_byte_of_string s :
  length (list_byte_of_string s) = String.length s.
Proof.
  unfold list_byte_of_string. rewrite length_map.
  induction s as [|a s IH]; simpl; [done|]. by rewrite IH.
Qed.

End Bytes.

(** ** Decoders read back what the encoders wrote *)

Section Decoding.

Lemma drop_app_bound {A} (bl enc rest : list A) off :
  drop off bl = enc ++ rest -> (off <= length bl)%nat ->
  (off + length enc <= length bl)%nat /\ drop (off + length enc) bl = rest.
Proof.
  intros Hdrop Hoff. split.
  - apply (f_equal length) in Hdrop. rewrite length_drop, length_app in Hdrop. lia.
  - by rewrite <- drop_drop, Hdrop, drop_app_length.
Qed.

Lemma bind_run {A B} (d : dec A) (k : A -> dec B) enc x bl off rest :
  decodes d enc x -> (off <= length bl)%nat -> drop off bl = enc ++ rest ->
  bind d k (Iterator bl off) = k x (Iterator bl (off + length enc)).
Proof. intros Hd Hoff Hdrop. unfold bind. by rewrite (Hd bl off rest Hoff Hdrop). Qed.

Lemma decodes_ret {A} (x : A) : decodes (ret x) [] x.
Proof. intros bl off rest _ _. unfold ret. simpl. by rewrite Nat.add_0_r. Qed.

Lemma decodes_bind {A B} (d : dec A) (k : A -> dec B) e1 e2 x y :
  decodes d e1 x -> decodes (k x) e2 y -> decodes (bind d k) (e1 ++ e2) y.
Proof.
  intros H1 H2 bl off rest Hoff Hdrop.
  rewrite <- app_assoc in Hdrop.
  rewrite (bind_run d k e1 x bl off (e2 ++ rest) H1 Hoff Hdrop).
  destruct (drop_app_bound _ _ _ _ Hdrop Hoff) as [Hb Hd].
  rewrite (H2 bl (off + length e1)%nat rest) by (lia || done).
  by rewrite length_app, Nat.add_assoc.
Qed.

Lemma decodes_bind_ret {A B} (d : dec A) (f : A -> B) enc x :
  decodes d enc x -> decodes (bind d (fun a => ret (f a))) enc (f x).
Proof.
  intros H. rewrite <- (app_nil_r enc).
  eapply decodes_bind; [done|apply decodes_ret].
Qed.

Lemma decodes_copy bs : decodes (copy (length bs)) bs bs.
Proof.
  intros bl off rest Hoff Hdrop. unfold copy. simpl.
  destruct (drop_app_bound _ _ _ _ Hdrop Hoff) as [Hb _].
  rewrite decide_True by done.
  by rewrite Hdrop, take_app_length.
Qed.

Lemma decodes_le w x : decodes (decode_le w) (le_bytes w x) (x mod 256 ^ Z.of_nat w).
Proof.
  unfold decode_le. rewrite <- le_value_le_bytes.
  apply decodes_bind_ret.
  rewrite <- (length_le_bytes w x) at 1. apply decodes_copy.
Qed.

Lemma decodes_le_id w x :
  0 <= x < 256 ^ Z.of_nat w -> decodes (decode_le w) (le_bytes w x) x.
Proof.
  intros H. rewrite <- (Z.mod_small x (256 ^ Z.of_nat w)) at 2 by done.
  apply decodes_le.
Qed.

Lemma decodes_u32_length n :
  u32_length n -> decodes decode_u32 (encode_u32 (Z.of_nat n)) (Z.of_nat n).
Proof.
  intros H. apply decodes_le_id. unfold u32_length in H.
  change (256 ^ Z.of_nat 4) with (2 ^ 32). lia.
Qed.

Lemma decodes_int x : int32_range x -> decodes decode_int (encode_int x) x.
Proof.
  intros H. unfold decode_int, encode_int.
  rewrite <- (to_int32_encode x H) at 2.
  apply decodes_bind_ret, decodes_le.
Qed.

Lemma decodes_string s :
  u32_length (String.length s) -> decodes decode_string (encode_string s) s.
Proof.
  intros H. unfold decode_string, encode_string. cbv zeta.
  rewrite length_list_byte_of_string.
  eapply decodes_bind; [by apply decodes_u32_length|].
  rewrite Nat2Z.id.
  pose proof (decodes_bind_ret (copy (String.length s)) string_of_list_byte
                (list_byte_of_string s) (list_byte_of_string s)) as Hcopy.
  rewrite string_of_list_byte_of_string in Hcopy. apply Hcopy.
  rewrite <- length_list_byte_of_string. apply decodes_copy.
Qed.

Lemma decodes_BucketCounter c :
  wf_BucketCounter c -> decodes decode_BucketCounter (encode_BucketCounter c) c.
Proof.
  intros [Hc Hb]. unfold decode_BucketCounter, encode_BucketCounter.
  eapply decodes_bind; [by apply decodes_string|].
  destruct c as [b n]. simpl in *.
  by apply (decodes_bind_ret decode_int (mkBucketCounter b)), decodes_int.
Qed.

Lemma decodes_n {A} (d : dec A) (enc : A -> bufferlist) (v : list A) :
  Forall (fun x => decodes d (enc x) x) v ->
  decodes (decode_n d (length v)) (concat (map enc v)) v.
Proof.
  induction 1 as [|x v Hx Hv IH]; simpl.
  - apply decodes_ret.
  - eapply decodes_bind; [done|].
    by apply (decodes_bind_ret (decode_n d (length v)) (cons x)).
Qed.

Lemma decodes_vector {A} (d : dec A) (enc : A -> bufferlist) (v : list A) :
  u32_length (length v) ->
  Forall (fun x => decodes d (enc x) x) v ->
  decodes (decode_vector d) (encode_vector enc v) v.
Proof.
  intros Hlen Hv. unfold decode_vector, encode_vector.
  eapply decodes_bind; [by apply decodes_u32_length|].
  rewrite Nat2Z.id. by apply decodes_n.
Qed.

Lemma length_ENCODE v compat payload :
  length (ENCODE v compat payload) = (6 + length payload)%nat.
Proof. unfold ENCODE. by rewrite !length_app. Qed.

Lemma decodes_DECODE {A} (body : dec A) payload x :
  u32_length (length payload) ->
  decodes body payload x ->
  decodes (DECODE 1 body) (ENCODE 1 1 payload) x.
Proof.
  intros Hlen Hbody bl off rest Hoff Hdrop.
  unfold DECODE, ENCODE in *. rewrite <- !app_assoc in Hdrop.
  rewrite (bind_run _ _ _ _ _ _ _ (decodes_le_id 1 1 ltac:(done)) Hoff Hdrop).
  destruct (drop_app_bound _ _ _ _ Hdrop Hoff) as [Hb1 Hd1].
  rewrite (bind_run _ _ _ _ _ _ _ (decodes_le_id 1 1 ltac:(done)) Hb1 Hd1).
  destruct (drop_app_bound _ _ _ _ Hd1 Hb1) as [Hb2 Hd2].
  change (1 <? 1) with false. cbv iota.
  rewrite (bind_run _ _ _ _ _ _ _ (decodes_u32_length _ Hlen) Hb2 Hd2).
  destruct (drop_app_bound _ _ _ _ Hd2 Hb2) as [Hb3 Hd3].
  destruct (drop_app_bound _ _ _ _ Hd3 Hb3) as [Hb4 Hd4].
  unfold encode_u8, encode_u32 in *. rewrite !length_le_bytes in *.
  unfold remaining, tell, get_remaining, get_off, bind at 1. simpl.
  assert (Hrem : (Z.of_nat (length bl - (off + 1 + 1 + 4)) <? Z.of_nat (length payload)) = false).
  { apply Z.ltb_ge. lia. }
  rewrite Hrem, Nat2Z.id. unfold bind at 1. cbn beta iota.
  rewrite (bind_run _ _ _ _ _ _ _ Hbody Hb3 Hd3).
  unfold bind at 1. cbn beta iota. cbn [it_off].
  rewrite (proj2 (Nat.ltb_ge _ _)) by lia.
  unfold bind, advance, ret. cbn [it_off it_bl].
  rewrite decide_True by lia.
  cbn [length app le_bytes]. do 2 f_equal. lia.
Qed.

Lemma decodes_Request r : wf_Request r -> decodes decode_Request (encode_Request r) r.
Proof.
  intros H. unfold decode_Request, encode_Request.
  apply decodes_DECODE.
  - unfold u32_length, encode_u16. rewrite length_le_bytes. done.
  - destruct r as [m]. apply (decodes_bind_ret decode_u16 mkRequest).
    by apply decodes_le_id.
Qed.

Lemma decodes_Response r : wf_Response r -> decodes decode_Response (encode_Response r) r.
Proof.
  intros (Hall & Hn & Hlen). unfold decode_Response, encode_Response.
  apply decodes_DECODE; [done|].
  destruct r as [v]. apply (decodes_bind_ret _ mkResponse).
  apply decodes_vector; [done|].
  eapply Forall_impl; [exact Hall|]. apply decodes_BucketCounter.
Qed.

Lemma decodes_begin {A} (d : dec A) enc x rest :
  decodes d enc x ->
  d (begin (enc ++ rest)) = (Ok x, Iterator (enc ++ rest) (length enc)).
Proof. intros H. apply (H (enc ++ rest) 0%nat rest); [simpl; lia|done]. Qed.

End Decoding.

(** ** The wire format *)

Section Wire.

(** C2: decoding the bytes produced by encoding a [Request], a [Response] or
    a [BucketCounter] yields the value that was encoded, and consumes exactly
    those bytes, whatever follows them in the buffer.  The values are those
    the C++ types hold ([uint16_t], [int]) with lengths that a 32-bit length
    field describes. *)
Theorem decode_encode_roundtrip :
  (forall (r : Request) rest, wf_Request r ->
     decode_Request (begin (encode_Request r ++ rest))
     = (Ok r, Iterator (encode_Request r ++ rest) (length (encode_Request r))))
  /\ (forall (r : Response) rest, wf_Response r ->
     decode_Response (begin (encode_Response r ++ rest))
     = (Ok r, Iterator (encode_Response r ++ rest) (length (encode_Response r))))
  /\ (forall (c : BucketCounter) rest, wf_BucketCounter c ->
     decode_BucketCounter (begin (encode_BucketCounter c ++ rest))
     = (Ok c, Iterator (encode_BucketCounter c ++ rest)
                (length (encode_BucketCounter c)))).
Proof.
  split; [|split]; intros m rest Hwf; apply decodes_begin.
  - by apply decodes_Request.
  - by apply decodes_Response.
  - by apply decodes_BucketCounter.
Qed.

(** C7: a [BucketCounter] is encoded as its bucket string followed by its
    count and nothing else, while the encodings of [Request] and [Response]
    start with the version and compat tag pair (1, 1), followed by the length
    of the payload. *)
Theorem BucketCounter_unversioned :
  (forall c : BucketCounter,
     encode_BucketCounter c = encode_string (bucket c) ++ encode_int (count c))
  /\ (forall r : Request,
     encode_Request r
     = encode_u8 1 ++ encode_u8 1
         ++ encode_u32 2 ++ encode_u16 (max_buckets r))
  /\ (forall r : Response,
     let payload := encode_vector encode_BucketCounter (bucket_counters r) in
     encode_Response r
     = encode_u8 1 ++ encode_u8 1
         ++ encode_u32 (Z.of_nat (length payload)) ++ payload).
Proof.
  split; [|split]; [done| |done].
  intros r. unfold encode_Request, ENCODE, encode_u16.
  by rewrite length_le_bytes.
Qed.

End Wire.

(** ** Decoding hostile input *)

Create HintDb within discriminated.

Section Safety.

Lemma stays_within_ret {A} (x : A) : stays_within (ret x).
Proof. intros p Hp. simpl. auto. Qed.

Lemma stays_within_throw {A} e : stays_within (@throw A e).
Proof. intros p Hp. simpl. auto. Qed.

Lemma stays_within_tell : stays_within tell.
Proof. intros p Hp. simpl. auto. Qed.

Lemma stays_within_remaining : stays_within remaining.
Proof. intros p Hp. simpl. auto. Qed.

Lemma stays_within_copy n : stays_within (copy n).
Proof.
  intros p Hp. unfold copy, within in *.
  destruct (decide _); simpl; repeat split; lia || done.
Qed.

Lemma stays_within_advance n : stays_within (advance n).
Proof.
  intros p Hp. unfold advance, within in *.
  destruct (decide _); simpl; repeat split; lia || done.
Qed.

Lemma stays_within_bind {A B} (d : dec A) (k : A -> dec B) :
  stays_within d -> (forall a, stays_within (k a)) -> stays_within (bind d k).
Proof.
  intros Hd Hk p Hp. unfold bind.
  destruct (Hd p Hp) as (Hbl & Hoff & Hw).
  destruct (d p) as [[a|e] p']; simpl in *; [|done].
  destruct (Hk a p' Hw) as (Hbl' & Hoff' & Hw').
  repeat split; [congruence|lia|done].
Qed.

End Safety.

#[global] Hint Resolve stays_within_ret stays_within_throw stays_within_tell
  stays_within_remaining stays_within_copy stays_within_advance : within.

(** Walks through the binds and branches of a decoder. *)
Ltac within_steps :=
  repeat first
    [ progress auto with within
    | apply stays_within_bind; [|intros ?]
    | match goal with
      | |- stays_within (if ?b then _ else _) => destruct b
      end ].

Section Hostile.

Lemma stays_within_le w : stays_within (decode_le w).
Proof. unfold decode_le. within_steps. Qed.

Lemma stays_within_DECODE {A} v (body : dec A) :
  stays_within body -> stays_within (DECODE v body).
Proof.
  intros Hbody. unfold DECODE, decode_u8, decode_u32.
  pose proof stays_within_le. within_steps.
Qed.

Lemma stays_within_n {A} (d : dec A) n :
  stays_within d -> stays_within (decode_n d n).
Proof. intros Hd. induction n; simpl; within_steps. Qed.

Lemma stays_within_BucketCounter : stays_within decode_BucketCounter.
Proof.
  unfold decode_BucketCounter, decode_string, decode_int, decode_u32.
  pose proof stays_within_le. within_steps.
Qed.

Lemma stays_within_Request : stays_within decode_Request.
Proof.
  apply stays_within_DECODE. unfold decode_u16.
  pose proof stays_within_le. within_steps.
Qed.

Lemma stays_within_Response : stays_within decode_Response.
Proof.
  apply stays_within_DECODE. unfold decode_vector, decode_u32.
  pose proof stays_within_le. pose proof stays_within_BucketCounter.
  pose proof (stays_within_n decode_BucketCounter). within_steps.
Qed.

(** A compat tag above 1 is refused as soon as it is read. *)
Lemma DECODE_newer_compat {A} (body : dec A) v compat payload rest :
  1 < compat < 256 ->
  DECODE 1 body (begin (ENCODE v compat payload ++ rest))
  = (Throw ProtocolVersionError, Iterator (ENCODE v compat payload ++ rest) 2).
Proof.
  intros Hc. unfold DECODE, ENCODE, begin.
  set (bl := (_ ++ _) ++ rest).
  assert (Hdrop : drop 0 bl = encode_u8 v ++ encode_u8 compat
            ++ encode_u32 (Z.of_nat (length payload)) ++ payload ++ rest).
  { unfold bl. by rewrite <- !app_assoc. }
  assert (Hoff : (0 <= length bl)%nat) by lia.
  rewrite (bind_run _ _ _ _ _ _ _ (decodes_le 1 v) Hoff Hdrop).
  destruct (drop_app_bound _ _ _ _ Hdrop Hoff) as [Hb1 Hd1].
  rewrite (bind_run _ _ _ _ _ _ _ (decodes_le_id 1 compat ltac:(simpl; lia)) Hb1 Hd1).
  rewrite (proj2 (Z.ltb_lt 1 compat)) by lia. done.
Qed.

(** A struct that was cut short is malformed. *)
Lemma DECODE_truncated {A} (body : dec A) payload n :
  u32_length (length payload) ->
  (n < length (ENCODE 1 1 payload))%nat ->
  (DECODE 1 body (begin (take n (ENCODE 1 1 payload)))).1
  = Throw MalformedMessageError.
Proof.
  intros Hlen Hn. rewrite length_ENCODE in Hn.
  destruct (decide (n < 6)%nat) as [Hsmall|Hbig].
  - unfold ENCODE, encode_u8, encode_u32. cbn [le_bytes app].
    do 6 (destruct n as [|n]; [by vm_compute|]). lia.
  - unfold DECODE, ENCODE, begin.
    set (bl := take n _).
    assert (Hdrop : drop 0 bl = encode_u8 1 ++ encode_u8 1
              ++ encode_u32 (Z.of_nat (length payload))
              ++ take (n - 6) payload ++ []).
    { unfold bl, encode_u8, encode_u32. cbn [le_bytes app].
      do 6 (destruct n as [|n]; [lia|]). cbn [take drop firstn].
      rewrite app_nil_r. do 7 f_equal. lia. }
    assert (Hoff : (0 <= length bl)%nat) by lia.
    rewrite (bind_run _ _ _ _ _ _ _ (decodes_le_id 1 1 ltac:(done)) Hoff Hdrop).
    destruct (drop_app_bound _ _ _ _ Hdrop Hoff) as [Hb1 Hd1].
    rewrite (bind_run _ _ _ _ _ _ _ (decodes_le_id 1 1 ltac:(done)) Hb1 Hd1).
    destruct (drop_app_bound _ _ _ _ Hd1 Hb1) as [Hb2 Hd2].
    change (1 <? 1) with false. cbv iota.
    rewrite (bind_run _ _ _ _ _ _ _ (decodes_u32_length _ Hlen) Hb2 Hd2).
    unfold remaining, get_remaining, bind at 1. cbn [it_bl it_off].
    assert (Hbl : length bl = n).
    { unfold bl. rewrite length_take.
      change (encode_u8 1 ++ _) with (ENCODE 1 1 payload).
      rewrite length_ENCODE. lia. }
    rewrite Hbl. unfold encode_u8, encode_u32. rewrite !length_le_bytes.
    rewrite (proj2 (Z.ltb_lt _ _)) by lia. done.
Qed.

End Hostile.

Section Rejection.

(** C3: a [Request] or [Response] whose compat tag is above 1, the highest
    this decoder understands, is refused with [ProtocolVersionError] and no
    value is produced; every proper prefix of an encoded [Request] or
    [Response] is refused with [MalformedMessageError]; and whatever the
    input, the iterator ends up inside the buffer it was given. *)
Theorem decode_rejects :
  (forall v compat payload rest, 1 < compat < 256 ->
     (decode_Request (begin (ENCODE v compat payload ++ rest))).1
       = Throw ProtocolVersionError
     /\ (decode_Response (begin (ENCODE v compat payload ++ rest))).1
       = Throw ProtocolVersionError)
  /\ (forall (r : Request) n, (n < length (encode_Request r))%nat ->
     (decode_Request (begin (take n (encode_Request r)))).1
       = Throw MalformedMessageError)
  /\ (forall (r : Response) n, wf_Response r ->
     (n < length (encode_Response r))%nat ->
     (decode_Response (begin (take n (encode_Response r)))).1
       = Throw MalformedMessageError)
  /\ (forall bl,
     it_bl (decode_Request (begin bl)).2 = bl
     /\ (it_off (decode_Request (begin bl)).2 <= length bl)%nat
     /\ it_bl (decode_Response (begin bl)).2 = bl
     /\ (it_off (decode_Response (begin bl)).2 <= length bl)%nat).
Proof.
  repeat split.
  - unfold decode_Request. by rewrite DECODE_newer_compat.
  - unfold decode_Response. by rewrite DECODE_newer_compat.
  - intros r n Hn. apply DECODE_truncated; [|done].
    unfold u32_length, encode_u16. by rewrite length_le_bytes.
  - intros r n (_ & _ & Hlen) Hn. by apply DECODE_truncated.
  - by destruct (stays_within_Request (begin bl)) as (? & _ & _); [unfold within; simpl; lia|].
  - by destruct (stays_within_Request (begin bl)) as (Hbl & _ & Hw);
      [unfold within; simpl; lia|]; unfold within in Hw; rewrite Hbl in Hw.
  - by destruct (stays_within_Response (begin bl)) as (? & _ & _); [unfold within; simpl; lia|].
  - by destruct (stays_within_Response (begin bl)) as (Hbl & _ & Hw);
      [unfold within; simpl; lia|]; unfold within in Hw; rewrite Hbl in Hw.
Qed.

End Rejection.

(** ** The counter *)

Section Counter.
Context `{!BoundedKeyCounter.EvictionPolicy}.

Import BoundedKeyCounter.

Lemma insert_no_eviction key c :
  evicts key c = false ->
  insert key c
  = mk (bound c) (<[key := default 0 (counters c !! key) + 1]> (counters c)).
Proof.
  intros He. unfold insert.
  destruct (counters c !! key) as [n|] eqn:E; simpl; [done|].
  by rewrite He.
Qed.

Lemma record_all_no_eviction keys c :
  no_eviction keys c = true ->
  record_all keys c = mk (bound c) (tally (counters c) keys).
Proof.
  revert c. induction keys as [|k keys IH]; intros c Hne.
  - by destruct c.
  - simpl in Hne. apply andb_true_iff in Hne as [He Hne].
    apply negb_true_iff in He.
    unfold record_all in *. simpl.
    rewrite (IH _ Hne), (insert_no_eviction _ _ He). done.
Qed.

Lemma recorded_cons key k keys :
  recorded key (k :: keys)
  = (if decide (k = key) then 1 else 0) + recorded key keys.
Proof.
  unfold recorded. rewrite filter_cons.
  destruct (decide (k = key)); simpl length; lia.
Qed.

Lemma recorded_Permutation key keys keys' :
  keys ≡ₚ keys' -> recorded key keys = recorded key keys'.
Proof. intros Hp. unfold recorded. by rewrite Hp. Qed.

Lemma recorded_not_in key keys : key ∉ keys -> recorded key keys = 0.
Proof.
  induction keys as [|k keys IH]; intros Hin; [done|].
  rewrite recorded_cons. rewrite not_elem_of_cons in Hin. destruct Hin as [Hne Hin].
  rewrite decide_False by done. rewrite IH by done. lia.
Qed.

Lemma lookup_tally m keys b :
  tally m keys !! b
  = if decide (b ∈ keys)
    then Some (default 0 (m !! b) + recorded b keys)
    else m !! b.
Proof.
  revert m. induction keys as [|k keys IH]; intros m.
  - unfold tally. simpl foldl.
    destruct (decide _) as [Hin|]; [by apply not_elem_of_nil in Hin|done].
  - unfold tally in *. simpl. rewrite IH, recorded_cons.
    destruct (decide (k = b)) as [->|Hkb].
    + rewrite lookup_insert_eq. simpl.
      rewrite (decide_True (P := b ∈ b :: keys)) by (apply elem_of_cons; by left).
      destruct (decide (b ∈ keys)) as [Hin|Hin];
        [|rewrite (recorded_not_in _ _ Hin)]; f_equal; lia.
    + rewrite lookup_insert_ne by done.
      destruct (decide (b ∈ keys)) as [Hin|Hin].
      * rewrite decide_True by (apply elem_of_cons; by right).
        f_equal; lia.
      * rewrite decide_False; [done|]. rewrite elem_of_cons.
        intros [Heq|Hin']; [by subst|done].
Qed.

(** With no eviction the counter holds, for every key, the number of times
    it was recorded. *)
Lemma lookup_record_all (size : nat) keys b :
  no_eviction keys (new size) = true ->
  counters (record_all keys (new size)) !! b
  = if decide (b ∈ keys) then Some (recorded b keys) else None.
Proof.
  intros Hne. rewrite (record_all_no_eviction _ _ Hne). simpl.
  rewrite lookup_tally, lookup_empty. simpl.
  destruct (decide _); [f_equal; lia|done].
Qed.

Lemma length_get_highest n c :
  length (get_highest n c) = (n `min` BoundedKeyCounter.size c)%nat.
Proof.
  unfold get_highest, BoundedKeyCounter.size.
  by rewrite length_take, merge_sort_Permutation, length_map_to_list.
Qed.

Lemma elem_of_get_highest n c k v :
  (k, v) ∈ get_highest n c -> counters c !! k = Some v.
Proof.
  unfold get_highest. intros Hin.
  apply subseteq_take in Hin. rewrite merge_sort_Permutation in Hin.
  by apply elem_of_map_to_list.
Qed.

Lemma get_highest_all n c k v :
  (BoundedKeyCounter.size c <= n)%nat ->
  counters c !! k = Some v -> (k, v) ∈ get_highest n c.
Proof.
  unfold get_highest, BoundedKeyCounter.size. intros Hn Hk.
  rewrite take_ge by (by rewrite merge_sort_Permutation, length_map_to_list).
  rewrite merge_sort_Permutation. by apply elem_of_map_to_list.
Qed.

End Counter.

(** ** Serving a request *)

Section Inversion.

Lemma bind_Ok_inv {A B} (d : dec A) (k : A -> dec B) p y p' :
  bind d k p = (Ok y, p') ->
  exists a p1, d p = (Ok a, p1) /\ k a p1 = (Ok y, p').
Proof.
  unfold bind. destruct (d p) as [[a|e] p1]; [|done]. intros H. by exists a, p1.
Qed.

Lemma DECODE_Ok_inv {A} v (body : dec A) p x p' :
  DECODE v body p = (Ok x, p') -> exists p0 p1, body p0 = (Ok x, p1).
Proof.
  unfold DECODE. intros H.
  apply bind_Ok_inv in H as (sv & q1 & _ & H).
  apply bind_Ok_inv in H as (sc & q2 & _ & H).
  destruct (v <? sc); [done|].
  apply bind_Ok_inv in H as (sl & q3 & _ & H).
  apply bind_Ok_inv in H as (rm & q4 & _ & H).
  destruct (Z.of_nat rm <? sl); [done|].
  apply bind_Ok_inv in H as (off & q5 & _ & H).
  apply bind_Ok_inv in H as (y & q6 & Hbody & H).
  apply bind_Ok_inv in H as (off' & q7 & _ & H).
  destruct (_ <? _)%nat; [done|].
  apply bind_Ok_inv in H as ([] & q8 & _ & H).
  unfold ret in H. injection H as -> ->. eauto.
Qed.

Lemma decode_le_range w p x p' :
  decode_le w p = (Ok x, p') -> 0 <= x < 256 ^ Z.of_nat w.
Proof.
  unfold decode_le. intros H.
  apply bind_Ok_inv in H as (bs & q & Hcopy & H).
  unfold ret in H. injection H as <- _.
  unfold copy in Hcopy. destruct (decide _) as [Hle|]; [|done].
  injection Hcopy as <- _.
  pose proof (le_value_range (take w (drop (it_off p) (it_bl p)))) as Hr.
  rewrite length_take_le in Hr; [done|]. rewrite length_drop. lia.
Qed.

(** Whatever arrives, a decoded [max_buckets] is a [uint16_t]. *)
Lemma decode_Request_range p r p' :
  decode_Request p = (Ok r, p') -> wf_Request r.
Proof.
  unfold decode_Request. intros H.
  apply DECODE_Ok_inv in H as (p0 & p1 & H).
  apply bind_Ok_inv in H as (m & q & Hm & H).
  unfold ret in H. injection H as <- _.
  apply decode_le_range in Hm. done.
Qed.

End Inversion.

Section Serving.
Context {R : Type}.

Import BucketTrimManager.

(** C1: whatever [max_buckets] a request carries, the handler answers with
    the encoding of a response of at most [min(max_buckets, 128)] entries,
    and of no more entries than the counter holds keys. *)
Theorem handle_clamps_response (impl : Impl R) input output request input' :
  decode_Request input = (Ok request, input') ->
  exists response,
    Handler_handle impl input output
      = (Ok tt, input', output ++ encode_Response response)
    /\ Z.of_nat (length (bucket_counters response))
        <= Z.min (max_buckets request) 128
    /\ (length (bucket_counters response)
        <= BoundedKeyCounter.size (counter impl))%nat.
Proof.
  intros Hdec. pose proof (decode_Request_range _ _ _ Hdec) as [Hlo Hhi].
  unfold Handler_handle. rewrite Hdec. eexists. split; [done|].
  unfold get_bucket_counters, Impl_Server, Impl_get_bucket_counters. simpl.
  rewrite length_fmap, length_get_highest. lia.
Qed.

End Serving.

(** ** Counting *)

Section Counting.
Context {R : Type} `{!BoundedKeyCounter.EvictionPolicy}.

Import BucketTrimManager.

Lemma counter_on_bucket_changed (impl : Impl R) keys :
  counter (foldl (fun i b => on_bucket_changed b i) impl keys)
  = record_all keys (counter impl).
Proof.
  revert impl. induction keys as [|k keys IH]; intros impl; [done|].
  simpl. by rewrite IH.
Qed.

Lemma tally_scenario keys :
  keys ≡ₚ replicate 10 "bucket1:inst1"%string ++ replicate 3 "bucket2:inst1"%string ->
  tally ∅ keys = <["bucket1:inst1"%string := 10]> (<["bucket2:inst1"%string := 3]> ∅).
Proof.
  intros Hp. apply map_eq. intros b.
  rewrite lookup_tally, lookup_empty, (recorded_Permutation b _ _ Hp).
  destruct (decide (b = "bucket1:inst1"%string)) as [->|H1].
  - rewrite decide_True
      by (rewrite Hp, elem_of_app, !elem_of_replicate; by left).
    by rewrite lookup_insert_eq.
  - rewrite lookup_insert_ne by done.
    destruct (decide (b = "bucket2:inst1"%string)) as [->|H2].
    + rewrite decide_True
        by (rewrite Hp, elem_of_app, !elem_of_replicate; by right).
      by rewrite lookup_insert_eq.
    + rewrite lookup_insert_ne, lookup_empty by done.
      rewrite decide_False; [done|].
      rewrite Hp, elem_of_app, !elem_of_replicate.
      by intros [[-> _]|[-> _]].
Qed.

(** C6: when no record call had to evict, every entry served reports, for its
    key, the number of times the key was recorded, and every recorded key is
    served once enough entries are asked for.  In particular, after
    "bucket1:inst1" was recorded 10 times and "bucket2:inst1" 3 times, in
    whatever order, a request with [max_buckets = 1] is answered with exactly
    [("bucket1:inst1", 10)]. *)
Theorem counts_match_records (store : R) (counter_size : nat) (keys : list string) :
  let impl := foldl (fun i b => on_bucket_changed b i)
                (BucketTrimManager.new store counter_size) keys in
  no_eviction keys (BoundedKeyCounter.new counter_size) = true ->
  (forall n e, e ∈ get_bucket_counters impl n [] ->
     count e = recorded (bucket e) keys)
  /\ (forall n b, b ∈ keys ->
     Z.of_nat (BoundedKeyCounter.size (counter impl)) <= n ->
     mkBucketCounter b (recorded b keys) ∈ get_bucket_counters impl n [])
  /\ (keys ≡ₚ replicate 10 "bucket1:inst1"%string
              ++ replicate 3 "bucket2:inst1"%string ->
     forall rest output,
       Handler_handle impl (begin (encode_Request (mkRequest 1) ++ rest)) output
       = (Ok tt,
          Iterator (encode_Request (mkRequest 1) ++ rest)
                   (length (encode_Request (mkRequest 1))),
          output ++ encode_Response
                      (mkResponse [mkBucketCounter "bucket1:inst1" 10]))).
Proof.
  intros impl Hne.
  assert (Hc : counter impl = record_all keys (BoundedKeyCounter.new counter_size))
    by apply counter_on_bucket_changed.
  unfold get_bucket_counters, Impl_Server, Impl_get_bucket_counters.
  rewrite Hc. repeat split.
  - intros n e He. simpl in He.
    apply list_elem_of_fmap in He as ([k v] & -> & Hkv). simpl.
    apply elem_of_get_highest in Hkv.
    rewrite (lookup_record_all _ _ _ Hne) in Hkv.
    destruct (decide _); congruence.
  - intros n b Hb Hn. simpl.
    apply (list_elem_of_fmap_2' _ _ (b, recorded b keys)); [|done].
    apply get_highest_all; [lia|].
    rewrite (lookup_record_all _ _ _ Hne). by rewrite decide_True.
  - intros Hp rest output. unfold Handler_handle.
    rewrite (decodes_begin _ _ _ rest (decodes_Request (mkRequest 1) ltac:(done))).
    unfold get_bucket_counters, Impl_Server, Impl_get_bucket_counters.
    rewrite Hc, (record_all_no_eviction _ _ Hne). simpl BoundedKeyCounter.counters.
    rewrite (tally_scenario _ Hp). done.
Qed.

End Counting.

(** ** The watcher *)

Section Notify.
Context {R : Type} `{!Librados R} `{!Platform}.
Context {Srv : Type} `{!Server Srv}.

Import BucketTrimWatcher.

Lemma acks_app tr tr' : acks (tr ++ tr') = acks tr ++ acks tr'.
Proof. apply omap_app. Qed.

Lemma handler_calls_app tr tr' :
  handler_calls (tr ++ tr') = handler_calls tr ++ handler_calls tr'.
Proof. apply omap_app. Qed.

Lemma trace_do_notify_ack notify_id cookie reply (w : t R) :
  trace (do_notify_ack notify_id cookie reply w)
  = trace w ++ [NotifyAck notify_id cookie reply].
Proof. unfold do_notify_ack. by destruct (ioctx_notify_ack _ _ _ _). Qed.

(** A handler that throws has not written to its output. *)
Lemma handler_throws_clean h (server : Srv) input output e input' output' :
  TrimNotifyHandler_handle h server input output = (Throw e, input', output') ->
  output' = output.
Proof.
  destruct h. unfold TrimNotifyHandler_handle, Handler_handle.
  destruct (decode_Request input) as [[request|e'] p]; [done|].
  by intros [= _ _ ->].
Qed.

(** C4: a notification whose cookie is the current handle is acknowledged
    exactly once, as the last thing the callback does, and the callback
    returns in every case.  When the notify type has no handler, when the type
    cannot be decoded, or when the handler throws, the acknowledgement is
    empty. *)
Theorem handle_notify_acks_once (server : Srv)
    (notify_id cookie notifier_id : Z) (bl : bufferlist) (w : t R) :
  cookie = handle w ->
  let w' := handle_notify server notify_id cookie notifier_id bl w in
  exists reply,
    acks (trace w') = acks (trace w) ++ [reply]
    /\ last (trace w') = Some (NotifyAck notify_id cookie reply)
    /\ (forall type p, decode_TrimNotifyType (begin bl) = (Ok type, p) ->
         handlers w !! type = None -> reply = [] /\ trace w' = trace w ++ [NotifyAck notify_id cookie []])
    /\ (forall e p, decode_TrimNotifyType (begin bl) = (Throw e, p) -> reply = [])
    /\ (forall type p h e p' out,
         decode_TrimNotifyType (begin bl) = (Ok type, p) ->
         handlers w !! type = Some h ->
         TrimNotifyHandler_handle h server p [] = (Throw e, p', out) ->
         reply = []).
Proof.
  intros Hc w'. subst w'. unfold handle_notify.
  rewrite decide_False by (by intros ?).
  destruct (decode_TrimNotifyType (begin bl)) as [[type|e] p].
  - destruct (handlers w !! type) as [h|] eqn:Hl.
    + destruct (TrimNotifyHandler_handle h server p []) as [[[[]|e] p'] out] eqn:Hh.
      * exists out. rewrite trace_do_notify_ack. simpl.
        rewrite !acks_app, last_snoc. simpl. rewrite app_nil_r.
        split; [done|]. split; [done|]. split; [|split; [done|]].
        -- intros type' p0 [= <- <-] Hn. congruence.
        -- intros type' p0 h' e p1 out' [= <- <-] Hs Hthrow. congruence.
      * apply handler_throws_clean in Hh as ->.
        exists []. rewrite trace_do_notify_ack. simpl.
        rewrite !acks_app, last_snoc. simpl. rewrite app_nil_r.
        split; [done|]. split; [done|]. split; [|split; done].
        intros type' p0 [= <- <-] Hn. congruence.
    + exists []. rewrite trace_do_notify_ack.
      rewrite !acks_app, last_snoc. simpl.
      split; [done|]. split; [done|]. split; [done|]. split; done.
  - exists []. rewrite trace_do_notify_ack.
    rewrite !acks_app, last_snoc. simpl.
    split; [done|]. split; [done|]. split; [done|]. split; done.
Qed.

(** C5: a notification whose cookie is not the current handle leaves the
    watcher as it was: no handler is invoked, nothing is acknowledged, and
    neither the handle nor the store changes. *)
Theorem handle_notify_stale_cookie (server : Srv)
    (notify_id cookie notifier_id : Z) (bl : bufferlist) (w : t R) :
  cookie <> handle w ->
  let w' := handle_notify server notify_id cookie notifier_id bl w in
  w' = w
  /\ handler_calls (trace w') = handler_calls (trace w)
  /\ acks (trace w') = acks (trace w).
Proof.
  intros Hc. unfold handle_notify. by rewrite decide_True.
Qed.

End Notify.

Section Subscription.
Context {R : Type} `{!Librados R}.

Import BucketTrimWatcher.

(** C8, amended: [start] first obtains the reference to the control object,
    and returns the error without watching, creating or closing anything when
    that fails.  Otherwise it attempts the watch.  It creates the object,
    exclusively, if and only if that watch answers [-ENOENT]; when the
    creation answers 0 or [-EEXIST] the watch is attempted once more and
    never again.  A failed watch that is not followed by a retry, and a
    failed retry, close the ioctx and are returned; a watch that succeeds
    returns 0. *)
Theorem start_subscribes (w : t R) :
  let ref := get_raw_obj_ref (store w) in
  let first := ioctx_watch2 ref.2 in
  let created := ioctx_create true first.2 in
  let retry := ioctx_watch2 created.2 in
  (ref.1 < 0 ->
     (start w).1 = ref.1
     /\ trace (start w).2 = trace w ++ [GetRawObjRef]
     /\ handle (start w).2 = handle w)
  /\ (0 <= ref.1 ->
  exists tr,
    trace (start w).2 = trace w ++ GetRawObjRef :: Watch2 :: tr
    /\ (first.1.1 <> - ENOENT ->
        (first.1.1 < 0 -> tr = [Close] /\ (start w).1 = first.1.1)
        /\ (0 <= first.1.1 ->
            tr = [] /\ (start w).1 = 0 /\ handle (start w).2 = first.1.2))
    /\ (first.1.1 = - ENOENT ->
        head tr = Some (Create true)
        /\ (created.1 = 0 \/ created.1 = - EEXIST ->
            (retry.1.1 < 0 ->
               tr = [Create true; Watch2; Close] /\ (start w).1 = retry.1.1)
            /\ (0 <= retry.1.1 ->
               tr = [Create true; Watch2] /\ (start w).1 = 0
               /\ handle (start w).2 = retry.1.2))
        /\ (created.1 <> 0 -> created.1 <> - EEXIST -> Watch2 ∉ tr))).
Proof.
  intros ref first created retry. split.
  { subst ref. unfold start, do_get_raw_obj_ref.
    destruct (get_raw_obj_ref (store w)) as [r0 s0]. cbn [fst snd]. intros Href.
    by rewrite (proj2 (Z.ltb_lt r0 0)). }
  intros Href.
  subst ref first created retry.
  unfold start, do_get_raw_obj_ref, do_watch2, do_create, do_close.
  destruct (get_raw_obj_ref (store w)) as [r0 s0]. cbn [fst snd] in Href.
  cbn [fst snd store trace handle handlers].
  rewrite (proj2 (Z.ltb_ge r0 0)) by lia.
  destruct (ioctx_watch2 s0) as [[r1 h1] s1].
  cbn [fst snd store trace handle handlers].
  destruct (Z.eqb_spec r1 (- ENOENT)) as [->|Hne].
  - destruct (ioctx_create true s1) as [r2 s2].
    cbn [fst snd store trace handle handlers].
    destruct (Z.eqb_spec r2 (- EEXIST)) as [->|Hne2];
      [|destruct (Z.eqb_spec r2 0) as [->|Hne0]]; cbn [orb].
    1,2: destruct (ioctx_watch2 s2) as [[r3 h3] s3];
      cbn [fst snd store trace handle handlers];
      destruct (Z.ltb_spec r3 0); cbn [fst snd store trace handle handlers];
      rewrite <- !app_assoc; cbn [app];
      eexists; (split; [reflexivity|]);
      (split; [intros Hx; by destruct Hx|]); intros _;
      (split; [reflexivity|]);
      (split; [intros _; split; intros; first [lia | done]
              |intros; first [lia | done]]).
    destruct (Z.ltb_spec r2 0); cbn [fst snd store trace handle handlers];
      rewrite <- !app_assoc; cbn [app];
      eexists; (split; [reflexivity|]);
      (split; [intros Hx; by destruct Hx|]); intros _;
      (split; [reflexivity|]);
      (split; [intros [?|?]; done|]); intros _ _;
      rewrite ?elem_of_cons, elem_of_nil; intros Hin; by decompose [or] Hin.
  - destruct (Z.ltb_spec r1 0); cbn [fst snd store trace handle handlers];
      rewrite <- ?app_assoc; cbn [app];
      eexists; (split; [reflexivity|]);
      (split; [|done]); intros _;
      split; intros; first [lia | done].
Qed.

(** C9: a disconnect reported for the current handle makes the watcher
    unwatch the old handle and watch again, once.  When the watch succeeds
    the handle is the one that this watch stored; when it fails the ioctx is
    closed, and nothing further is attempted. *)
Theorem handle_error_restarts_once (cookie : Z) (w : t R) :
  let un := ioctx_unwatch2 (handle w) (store w) in
  let re := ioctx_watch2 un.2 in
  let w' := handle_error cookie (- ENOTCONN) w in
  cookie = handle w ->
  (0 <= re.1.1 ->
     trace w' = trace w ++ [Unwatch2 (handle w); Watch2]
     /\ handle w' = re.1.2 /\ store w' = re.2)
  /\ (re.1.1 < 0 ->
     trace w' = trace w ++ [Unwatch2 (handle w); Watch2; Close]
     /\ store w' = ioctx_close re.2).
Proof.
  intros un re w' Hc. subst un re w'. unfold handle_error.
  rewrite decide_False by (by intros ?). rewrite Z.eqb_refl.
  unfold restart, do_unwatch2, do_watch2, do_close.
  destruct (ioctx_unwatch2 (handle w) (store w)) as [r0 s0].
  cbn [fst snd store trace handle handlers].
  destruct (ioctx_watch2 s0) as [[r1 h1] s1].
  cbn [fst snd store trace handle handlers].
  destruct (Z.ltb_spec r1 0); cbn [fst snd store trace handle handlers];
    rewrite <- !app_assoc; cbn [app];
    split; intros; first [lia | done].
Qed.

(** C10: an error that is not a disconnect, or that is reported for another
    cookie than the current handle, leaves the watcher as it was; in
    particular nothing is unwatched or watched. *)
Theorem handle_error_ignores (cookie err : Z) (w : t R) :
  err <> - ENOTCONN \/ cookie <> handle w ->
  handle_error cookie err w = w.
Proof.
  intros Hor. unfold handle_error.
  destruct (decide (cookie <> handle w)); [done|].
  destruct Hor as [Herr|Hc]; [|done].
  by rewrite (proj2 (Z.eqb_neq _ _) Herr).
Qed.

End Subscription.

(** ** The statements at sample inputs *)

Section Witnesses.

Import BucketTrimManager BucketTrimWatcher Samples.

Lemma handle_clamps_response_witness :
  decode_Request (begin (encode_Request (mkRequest 65535)))
    = (Ok (mkRequest 65535), Iterator (encode_Request (mkRequest 65535)) 8)
  /\ exists response,
      Handler_handle busy (begin (encode_Request (mkRequest 65535))) []
        = (Ok tt, Iterator (encode_Request (mkRequest 65535)) 8,
           [] ++ encode_Response response)
      /\ Z.of_nat (length (bucket_counters response)) <= Z.min 65535 128
      /\ (length (bucket_counters response)
          <= BoundedKeyCounter.size (counter busy))%nat.
Proof.
  split; [reflexivity|].
  apply (handle_clamps_response busy _ [] (mkRequest 65535)). reflexivity.
Defined.

Lemma decode_encode_roundtrip_witness :
  (wf_Request (mkRequest 128)
   /\ decode_Request (begin (encode_Request (mkRequest 128) ++ []))
      = (Ok (mkRequest 128),
         Iterator (encode_Request (mkRequest 128) ++ [])
                  (length (encode_Request (mkRequest 128)))))
  /\ (wf_Response (mkResponse [])
   /\ decode_Response (begin (encode_Response (mkResponse []) ++ []))
      = (Ok (mkResponse []),
         Iterator (encode_Response (mkResponse []) ++ [])
                  (length (encode_Response (mkResponse [])))))
  /\ (wf_Response full_response
   /\ decode_Response (begin (encode_Response full_response ++ []))
      = (Ok full_response,
         Iterator (encode_Response full_response ++ [])
                  (length (encode_Response full_response))))
  /\ (wf_BucketCounter (mkBucketCounter "" (2 ^ 31 - 1))
   /\ decode_BucketCounter
        (begin (encode_BucketCounter (mkBucketCounter "" (2 ^ 31 - 1)) ++ []))
      = (Ok (mkBucketCounter "" (2 ^ 31 - 1)),
         Iterator (encode_BucketCounter (mkBucketCounter "" (2 ^ 31 - 1)) ++ [])
                  (length (encode_BucketCounter (mkBucketCounter "" (2 ^ 31 - 1)))))).
Proof.
  destruct decode_encode_roundtrip as (Hreq & Hresp & Hbc).
  assert (H1 : wf_Request (mkRequest 128))
    by (apply (bool_decide_unpack _); vm_compute; exact I).
  assert (H2 : wf_Response (mkResponse []))
    by (apply (bool_decide_unpack _); vm_compute; exact I).
  assert (H3 : wf_Response full_response)
    by (apply (bool_decide_unpack _); vm_compute; exact I).
  assert (H4 : wf_BucketCounter (mkBucketCounter "" (2 ^ 31 - 1)))
    by (apply (bool_decide_unpack _); vm_compute; exact I).
  split; [exact (conj H1 (Hreq _ [] H1))|].
  split; [exact (conj H2 (Hresp _ [] H2))|].
  split; [exact (conj H3 (Hresp _ [] H3))|].
  exact (conj H4 (Hbc _ [] H4)).
Defined.

Lemma decode_rejects_witness :
  1 < 2 < 256
  /\ (decode_Request (begin (ENCODE 2 2 (encode_u16 5 ++ encode_u16 9) ++ []))).1
     = Throw ProtocolVersionError
  /\ (decode_Response (begin (ENCODE 2 2 (encode_u16 5 ++ encode_u16 9) ++ []))).1
     = Throw ProtocolVersionError
  /\ wf_Response (mkResponse [mkBucketCounter "b" 1])
  /\ (10 < length (encode_Response (mkResponse [mkBucketCounter "b" 1])))%nat
  /\ (decode_Response
        (begin (take 10 (encode_Response (mkResponse [mkBucketCounter "b" 1]))))).1
     = Throw MalformedMessageError.
Proof.
  destruct decode_rejects as (Hver & _ & Htrunc & _).
  assert (Hc : 1 < 2 < 256) by lia.
  assert (Hwf : wf_Response (mkResponse [mkBucketCounter "b" 1]))
    by (apply (bool_decide_unpack _); vm_compute; exact I).
  assert (Hn : (10 < length (encode_Response (mkResponse [mkBucketCounter "b" 1])))%nat)
    by (vm_compute; lia).
  destruct (Hver 2 2 (encode_u16 5 ++ encode_u16 9) [] Hc) as [Hq Hp].
  exact (conj Hc (conj Hq (conj Hp (conj Hwf (conj Hn (Htrunc _ 10%nat Hwf Hn)))))).
Defined.

Lemma handle_notify_acks_once_witness :
  0 = handle (watcher busy)
  /\ exists reply,
      acks (trace (BucketTrimWatcher.handle_notify busy 41 0 0 unknown_notify
                     (watcher busy)))
        = acks (trace (watcher busy)) ++ [reply]
      /\ reply = [].
Proof.
  split; [reflexivity|].
  destruct (handle_notify_acks_once busy 41 0 0 unknown_notify (watcher busy) eq_refl)
    as (reply & Hacks & _ & Hunknown & _).
  exists reply. split; [exact Hacks|].
  apply (Hunknown 7 (Iterator unknown_notify 4)); reflexivity.
Defined.

Lemma handle_notify_stale_cookie_witness :
  99 <> handle watching
  /\ BucketTrimWatcher.handle_notify busy 41 99 0 unknown_notify watching = watching.
Proof.
  assert (Hc : 99 <> handle watching) by (simpl; lia).
  split; [exact Hc|].
  apply (handle_notify_stale_cookie busy 41 99 0 unknown_notify watching Hc).
Defined.

Lemma counts_match_records_witness :
  no_eviction scenario_keys (BoundedKeyCounter.new 2) = true
  /\ Handler_handle
       (foldl (fun i b => on_bucket_changed b i)
          (BucketTrimManager.new SimStore.fresh 2) scenario_keys)
       (begin (encode_Request (mkRequest 1) ++ [])) []
     = (Ok tt,
        Iterator (encode_Request (mkRequest 1) ++ [])
                 (length (encode_Request (mkRequest 1))),
        [] ++ encode_Response (mkResponse [mkBucketCounter "bucket1:inst1" 10])).
Proof.
  assert (Hne : no_eviction scenario_keys (BoundedKeyCounter.new 2) = true)
    by (vm_compute; reflexivity).
  split; [exact Hne|].
  destruct (counts_match_records SimStore.fresh 2 scenario_keys Hne)
    as (_ & _ & Hscenario).
  apply Hscenario. reflexivity.
Defined.

Lemma start_subscribes_witness :
  0 <= (get_raw_obj_ref SimStore.fresh).1
  /\ trace (start (BucketTrimWatcher.new SimStore.fresh)).2
     = [GetRawObjRef; Watch2; Create true; Watch2]
  /\ (start (BucketTrimWatcher.new SimStore.fresh)).1 = 0.
Proof.
  assert (Href : 0 <= (get_raw_obj_ref SimStore.fresh).1) by (simpl; lia).
  split; [exact Href|].
  destruct (start_subscribes (BucketTrimWatcher.new SimStore.fresh)) as (_ & Hsub).
  destruct (Hsub Href) as (tr & Htr & _ & Hcreate).
  destruct (Hcreate eq_refl) as (_ & Hretry & _).
  destruct (Hretry (or_introl eq_refl)) as (_ & Hok).
  destruct (Hok ltac:(simpl; lia)) as (-> & Hr & _).
  split; [exact Htr|exact Hr].
Defined.

Lemma handle_error_restarts_once_witness :
  5 = handle watching
  /\ trace (handle_error 5 (- ENOTCONN) watching) = [Unwatch2 5; Watch2]
  /\ handle (handle_error 5 (- ENOTCONN) watching) = 6.
Proof.
  split; [reflexivity|].
  destruct (handle_error_restarts_once 5 watching eq_refl) as (Hok & _).
  destruct (Hok ltac:(simpl; lia)) as (Htr & Hh & _).
  split; [exact Htr|exact Hh].
Defined.

Lemma handle_error_ignores_witness :
  (- 110 <> - ENOTCONN \/ 5 <> handle watching)
  /\ handle_error 5 (- 110) watching = watching.
Proof.
  assert (H : - 110 <> - ENOTCONN \/ 5 <> handle watching)
    by (left; unfold ENOTCONN; lia).
  split; [exact H|].
  apply (handle_error_ignores 5 (- 110) watching H).
Defined.

(** [start] on a store whose pool cannot be opened returns the error of
    [get_raw_obj_ref] and never attempts the watch. *)
Lemma start_unreachable_no_watch :
  (start (BucketTrimWatcher.new unreachable)).1 = - ENOENT
  /\ trace (start (BucketTrimWatcher.new unreachable)).2 = [GetRawObjRef]
  /\ Watch2 ∉ trace (start (BucketTrimWatcher.new unreachable)).2.
Proof.
  split; [reflexivity|]. split; [reflexivity|].
  change (trace (start (BucketTrimWatcher.new unreachable)).2) with [GetRawObjRef].
  rewrite list_elem_of_singleton. discriminate.
Qed.

End Witnesses.

(** * Further properties of the watcher *)

(** Runs the calls on the store one after the other, with every answer the
    store may give. *)
Ltac store_step :=
  match goal with
  | |- context [get_raw_obj_ref ?s] => destruct (get_raw_obj_ref s) as [? ?]
  | |- context [ioctx_watch2 ?s] => destruct (ioctx_watch2 s) as [[? ?] ?]
  | |- context [ioctx_unwatch2 ?h ?s] => destruct (ioctx_unwatch2 h s) as [? ?]
  | |- context [ioctx_create ?b ?s] => destruct (ioctx_create b s) as [? ?]
  | |- context [ioctx_notify_ack ?a ?b ?c ?s] =>
      destruct (ioctx_notify_ack a b c s) as [? ?]
  | |- context [?a <? ?b] => destruct (Z.ltb_spec a b)
  | |- context [?a =? ?b] => destruct (Z.eqb_spec a b)
  end;
  cbn [fst snd orb BucketTrimWatcher.store BucketTrimWatcher.trace
       BucketTrimWatcher.handle BucketTrimWatcher.handlers].

Ltac store_cases :=
  unfold BucketTrimWatcher.start, BucketTrimWatcher.restart,
    BucketTrimWatcher.stop, BucketTrimWatcher.do_get_raw_obj_ref,
    BucketTrimWatcher.do_watch2, BucketTrimWatcher.do_unwatch2,
    BucketTrimWatcher.do_create, BucketTrimWatcher.do_close,
    BucketTrimWatcher.do_notify_ack, BucketTrimWatcher.invoked;
  cbn [fst snd orb BucketTrimWatcher.store BucketTrimWatcher.trace
       BucketTrimWatcher.handle BucketTrimWatcher.handlers];
  repeat store_step.

Section WatcherLife.
Context {R : Type} `{!Librados R} `{!Platform}.
Context {Srv : Type} `{!Server Srv}.

Import BucketTrimWatcher.

Lemma handlers_start (w : t R) : handlers (start w).2 = handlers w.
Proof. store_cases; done. Qed.

Lemma handlers_restart (w : t R) : handlers (restart w).2 = handlers w.
Proof. store_cases; done. Qed.

Lemma handlers_stop (w : t R) : handlers (stop w) = handlers w.
Proof. store_cases; done. Qed.

Lemma handlers_handle_error cookie err (w : t R) :
  handlers (handle_error cookie err w) = handlers w.
Proof.
  unfold handle_error. destruct (decide _); [done|].
  destruct (err =? - ENOTCONN); [apply handlers_restart|done].
Qed.

Lemma handle_notify_shape (server : Srv) notify_id cookie notifier_id bl (w : t R) :
  let w' := handle_notify server notify_id cookie notifier_id bl w in
  handle w' = handle w /\ handlers w' = handlers w
  /\ exists tr, trace w' = trace w ++ tr
       /\ Forall (fun e => subscription_event e = false) tr
       /\ (length tr <= 2)%nat.
Proof.
  unfold handle_notify. destruct (decide _).
  { cbv zeta. split; [done|]. split; [done|]. exists []. rewrite app_nil_r.
    split; [done|]. split; [constructor|simpl; lia]. }
  destruct (decode_TrimNotifyType (begin bl)) as [[type|e] p];
    [destruct (handlers w !! type) as [h|];
       [destruct (TrimNotifyHandler_handle h server p []) as [[[[]|e] p'] out]|]|];
    store_cases; (split; [done|]); (split; [done|]);
    rewrite <- ?app_assoc; eexists; (split; [reflexivity|]);
    (split; [cbn [app]; repeat constructor|simpl; lia]).
Qed.

Lemma handlers_deliver (server : Srv) (w : t R) i :
  handlers (Life.deliver server w i) = handlers w.
Proof.
  destruct i; simpl.
  - apply handlers_start.
  - apply handlers_restart.
  - apply handlers_stop.
  - apply handle_notify_shape.
  - apply handlers_handle_error.
Qed.

Lemma handlers_run (server : Srv) calls (w : t R) :
  handlers (Life.run server calls w) = handlers w.
Proof.
  revert w. induction calls as [|i calls IH]; intros w; [done|].
  unfold Life.run in *. simpl. by rewrite IH, handlers_deliver.
Qed.

(** X1: [start] returns 0 or a negative error code, never a positive one.
    It calls nothing but [get_raw_obj_ref], [watch2], an exclusive [create]
    and [close], with at most two watches.  It closes the ioctx exactly when
    it fails after the reference was obtained, and then as its last call. *)
Theorem start_returns_zero_or_error (w : t R) :
  exists tr,
    trace (start w).2 = trace w ++ tr
    /\ (start w).1 <= 0
    /\ Forall (fun e => e = GetRawObjRef \/ e = Watch2
                        \/ e = Create true \/ e = Close) tr
    /\ (length (filter (fun e => e = Watch2) tr) <= 2)%nat
    /\ (Close ∈ tr <-> (start w).1 < 0 /\ 0 <= (get_raw_obj_ref (store w)).1)
    /\ (Close ∈ tr -> last tr = Some Close).
Proof.
  store_cases.
  all: rewrite <- ?app_assoc; cbn [app]; eexists; (split; [reflexivity|]).
  all: (split; [lia|]).
  all: (split; [repeat (apply List.Forall_cons; [auto 6|]); apply List.Forall_nil|]).
  all: (split; [vm_compute; lia|]).
  all: rewrite ?elem_of_cons, ?elem_of_nil.
  all: split; [split|].
  all: try (intros Hin; decompose [or] Hin; try discriminate;
            try contradiction; try reflexivity; split; lia).
  all: intros [? ?]; first [lia | auto 10].
Qed.

End WatcherLife.

Section WatcherEdges.
Context {R : Type} `{!Librados R} `{!Platform}.
Context {Srv : Type} `{!Server Srv}.

Import BucketTrimWatcher.

(** X2: [stop] unwatches the current handle and closes the ioctx whatever the
    unwatch answered, and keeps the handle; a second [stop] therefore repeats
    both calls with the same handle. *)
Theorem stop_repeats (w : t R) :
  handle (stop w) = handle w
  /\ trace (stop w) = trace w ++ [Unwatch2 (handle w); Close]
  /\ trace (stop (stop w))
     = trace w ++ [Unwatch2 (handle w); Close; Unwatch2 (handle w); Close].
Proof. store_cases. by rewrite <- !app_assoc. Qed.

(** X3: when [start] fails after the reference was obtained it has closed the
    ioctx; the [stop] of the destructor then unwatches and closes it once
    more. *)
Theorem stop_after_failed_start (w : t R) :
  0 <= (get_raw_obj_ref (store w)).1 ->
  (start w).1 < 0 ->
  exists pre,
    trace (stop (start w).2)
    = trace w ++ pre ++ [Close; Unwatch2 (handle (start w).2); Close].
Proof.
  store_cases; intros Href Hfail; try lia; rewrite <- ?app_assoc; cbn [app];
    first [ by exists [GetRawObjRef; Watch2]
          | by exists [GetRawObjRef; Watch2; Create true]
          | by exists [GetRawObjRef; Watch2; Create true; Watch2] ].
Qed.

(** X4: a notification of type [NotifyTrimCounters] that carries an encoded
    request and arrives with the current handle invokes the handler once and
    is acknowledged with the encoding of the response that the server gives
    for [min(max_buckets, 128)]; bytes after the request are ignored. *)
Theorem handle_notify_serves_counters (server : Srv)
    (notify_id cookie notifier_id : Z) (request : Request) (rest : bufferlist)
    (w : t R) :
  cookie = handle w ->
  handlers w !! NotifyTrimCounters = Some TrimCountersHandler ->
  wf_Request request ->
  let bl := encode_TrimNotifyType NotifyTrimCounters
              ++ encode_Request request ++ rest in
  let response :=
    mkResponse (get_bucket_counters server (Z.min (max_buckets request) 128) []) in
  trace (handle_notify server notify_id cookie notifier_id bl w)
  = trace w ++ [InvokeHandler NotifyTrimCounters;
                NotifyAck notify_id cookie (encode_Response response)].
Proof.
  intros Hc Hh Hwf bl response. unfold handle_notify.
  rewrite decide_False by (by intros ?).
  unfold NotifyTrimCounters in *.
  pose proof (decodes_le sizeof_TrimNotifyType 0) as Htype.
  rewrite Zmod_0_l in Htype.
  unfold decode_TrimNotifyType, bl, encode_TrimNotifyType.
  rewrite (decodes_begin _ _ _ _ Htype), length_le_bytes, Hh.
  unfold TrimNotifyHandler_handle, Handler_handle.
  rewrite (decodes_Request request Hwf _ sizeof_TrimNotifyType rest).
  - rewrite trace_do_notify_ack. unfold invoked. cbn [trace app].
    by rewrite <- app_assoc.
  - rewrite length_app, length_le_bytes. lia.
  - by rewrite drop_app_length' by (by rewrite length_le_bytes).
Qed.

(** X5: whatever is done to a watcher after its construction, its table of
    handlers stays as the constructor left it: [NotifyTrimCounters] has its
    handler and no other type has one. *)
Theorem handlers_fixed (server : Srv) (calls : list invocation) (s : R) (type : Z) :
  handlers (Life.run server calls (new s)) !! type
  = if decide (type = NotifyTrimCounters) then Some TrimCountersHandler else None.
Proof.
  rewrite handlers_run. unfold new. cbn [handlers].
  destruct (decide _) as [->|Hne].
  - apply lookup_singleton_eq.
  - by apply lookup_singleton_ne.
Qed.

Lemma filter_subscription_none (tr : list event) :
  Forall (fun e => subscription_event e = false) tr ->
  filter (fun e => subscription_event e = true) tr = [].
Proof.
  induction 1 as [|e tr He _ IH]; [done|].
  rewrite filter_cons_False by (by rewrite He). done.
Qed.

(** X6: a notification, whatever its cookie and payload, leaves the watch
    alone: the handle stays, and the calls that concern the watch are those
    made before. *)
Theorem handle_notify_keeps_subscription (server : Srv)
    (notify_id cookie notifier_id : Z) (bl : bufferlist) (w : t R) :
  let w' := handle_notify server notify_id cookie notifier_id bl w in
  handle w' = handle w
  /\ filter (fun e => subscription_event e = true) (trace w')
     = filter (fun e => subscription_event e = true) (trace w).
Proof.
  destruct (handle_notify_shape server notify_id cookie notifier_id bl w)
    as (Hh & _ & tr & Htr & Hall & _).
  cbv zeta. split; [done|]. rewrite Htr, filter_app.
  by rewrite (filter_subscription_none tr Hall), app_nil_r.
Qed.

(** X7: a payload too short to hold the notify type, the empty payload among
    them, is acknowledged with an empty reply and reaches no handler. *)
Theorem handle_notify_short_payload (server : Srv)
    (notify_id cookie notifier_id : Z) (bl : bufferlist) (w : t R) :
  cookie = handle w ->
  (length bl < sizeof_TrimNotifyType)%nat ->
  trace (handle_notify server notify_id cookie notifier_id bl w)
  = trace w ++ [NotifyAck notify_id cookie []].
Proof.
  intros Hc Hlen. unfold handle_notify.
  rewrite decide_False by (by intros ?).
  unfold decode_TrimNotifyType, decode_le, bind, copy, begin. cbn [it_off it_bl].
  rewrite decide_False by lia.
  apply trace_do_notify_ack.
Qed.

End WatcherEdges.

(** * Further properties of the wire format *)

Section WireEdges.

Lemma bind_throw {A B} (d : dec A) (k : A -> dec B) p e p' :
  d p = (Throw e, p') -> bind d k p = (Throw e, p').
Proof. intros H. unfold bind. by rewrite H. Qed.

Lemma decode_le_short w bl off :
  (length bl < off + w)%nat ->
  decode_le w (Iterator bl off) = (Throw MalformedMessageError, Iterator bl off).
Proof.
  intros Hlen. unfold decode_le. apply bind_throw.
  unfold copy. cbn [it_off it_bl]. by rewrite decide_False by lia.
Qed.

Lemma length_encode_string s :
  length (encode_string s) = (4 + String.length s)%nat.
Proof.
  unfold encode_string, encode_u32. cbv zeta.
  by rewrite length_app, length_le_bytes, length_list_byte_of_string.
Qed.

Lemma length_encode_BucketCounter c :
  length (encode_BucketCounter c) = (8 + String.length (bucket c))%nat.
Proof.
  unfold encode_BucketCounter, encode_int.
  rewrite length_app, length_encode_string, length_le_bytes. lia.
Qed.

Lemma length_concat_entries v :
  length (concat (map encode_BucketCounter v)) = entries_size v.
Proof.
  unfold entries_size. induction v as [|c v IH]; [done|].
  cbn [map concat fmap list_fmap sum_list sum_list_with].
  rewrite length_app, length_encode_BucketCounter, IH. done.
Qed.

(** X8: every proper prefix of an encoded [BucketCounter] fails to decode,
    with a malformed-input error: the string length, the characters and the
    count are each checked against what is left of the buffer. *)
Theorem decode_BucketCounter_truncated (c : BucketCounter) (n : nat) :
  wf_BucketCounter c ->
  (n < length (encode_BucketCounter c))%nat ->
  (decode_BucketCounter (begin (take n (encode_BucketCounter c)))).1
  = Throw MalformedMessageError.
Proof.
  intros [Hc Hb] Hn. rewrite length_encode_BucketCounter in Hn.
  unfold decode_BucketCounter, begin.
  set (bs := list_byte_of_string (bucket c)).
  assert (Hbs : length bs = String.length (bucket c))
    by apply length_list_byte_of_string.
  destruct (decide (n < 4 + String.length (bucket c))%nat) as [Hshort|Hlong].
  - (* the string itself is cut *)
    assert (Hbl : take n (encode_BucketCounter c) = take n (encode_string (bucket c))).
    { unfold encode_BucketCounter. rewrite take_app_le; [done|].
      rewrite length_encode_string. lia. }
    rewrite Hbl.
    destruct (decide (n < 4)%nat) as [Hhead|Hbody].
    + erewrite bind_throw; [done|]. unfold decode_string.
      erewrite bind_throw; [done|]. apply decode_le_short.
      rewrite length_take. lia.
    + erewrite bind_throw; [done|]. unfold decode_string.
      assert (Hdrop : drop 0 (take n (encode_string (bucket c)))
                      = encode_u32 (Z.of_nat (String.length (bucket c)))
                          ++ take (n - 4) bs).
      { unfold encode_string. cbv zeta. fold bs. rewrite Hbs.
        rewrite take_app, (take_ge (encode_u32 _))
          by (unfold encode_u32; rewrite length_le_bytes; lia).
        unfold encode_u32. by rewrite length_le_bytes. }
      rewrite (bind_run _ _ _ _ _ _ _ (decodes_u32_length _ Hb)
                 (Nat.le_0_l _) Hdrop).
      erewrite bind_throw; [done|].
      unfold copy. cbn [it_off it_bl].
      rewrite decide_False; [done|].
      rewrite length_take, length_encode_string, Nat2Z.id.
      unfold encode_u32. rewrite length_le_bytes. lia.
  - (* the count is cut *)
    assert (Hdrop : drop 0 (take n (encode_BucketCounter c))
                    = encode_string (bucket c)
                        ++ take (n - (4 + String.length (bucket c)))
                             (encode_int (count c))).
    { unfold encode_BucketCounter.
      rewrite take_app, take_ge, length_encode_string
        by (rewrite length_encode_string; lia). done. }
    rewrite (bind_run _ _ _ _ _ _ _ (decodes_string _ Hb) (Nat.le_0_l _) Hdrop).
    erewrite bind_throw; [done|].
    unfold decode_int. apply bind_throw, decode_le_short.
    rewrite length_take, length_encode_BucketCounter, length_encode_string. lia.
Qed.

Lemma decodes_unique {A} (d : dec A) (enc : A -> bufferlist) x y r1 r2 :
  decodes d (enc x) x -> decodes d (enc y) y ->
  enc x ++ r1 = enc y ++ r2 -> x = y /\ r1 = r2.
Proof.
  intros Hx Hy Heq.
  pose proof (decodes_begin d _ _ r1 Hx) as H1.
  pose proof (decodes_begin d _ _ r2 Hy) as H2.
  rewrite Heq, H2 in H1. injection H1 as <- _.
  split; [done|]. by apply app_inv_head in Heq.
Qed.

(** X9: encoded messages are self-delimiting: when two encodings, each
    followed by arbitrary bytes, give the same buffer, the messages are equal
    and so are the bytes that follow.  For [BucketCounter] this is what lets
    the entries of a response be laid out one after the other without a tag
    or a length of their own. *)
Theorem encodings_self_delimiting :
  (forall c1 c2 r1 r2, wf_BucketCounter c1 -> wf_BucketCounter c2 ->
     encode_BucketCounter c1 ++ r1 = encode_BucketCounter c2 ++ r2 ->
     c1 = c2 /\ r1 = r2)
  /\ (forall q1 q2 r1 r2, wf_Request q1 -> wf_Request q2 ->
     encode_Request q1 ++ r1 = encode_Request q2 ++ r2 ->
     q1 = q2 /\ r1 = r2)
  /\ (forall p1 p2 r1 r2, wf_Response p1 -> wf_Response p2 ->
     encode_Response p1 ++ r1 = encode_Response p2 ++ r2 ->
     p1 = p2 /\ r1 = r2).
Proof.
  split; [|split]; intros x y r1 r2 Hx Hy.
  - apply (decodes_unique decode_BucketCounter); by apply decodes_BucketCounter.
  - apply (decodes_unique decode_Request); by apply decodes_Request.
  - apply (decodes_unique decode_Response); by apply decodes_Response.
Qed.

End WireEdges.

Section Compatibility.

(** A struct written by a later revision, with fields appended after those
    this decoder knows and a compat tag it accepts, decodes to the known
    fields; the appended bytes are skipped. *)
Lemma decodes_DECODE_appended {A} (body : dec A) v compat payload extra x :
  0 <= compat <= 1 ->
  u32_length (length (payload ++ extra)) ->
  decodes body payload x ->
  decodes (DECODE 1 body) (ENCODE v compat (payload ++ extra)) x.
Proof.
  intros Hcompat Hlen Hbody bl off rest Hoff Hdrop.
  unfold DECODE, ENCODE in *. rewrite <- !app_assoc in Hdrop.
  rewrite (bind_run _ _ _ _ _ _ _ (decodes_le 1 v) Hoff Hdrop).
  destruct (drop_app_bound _ _ _ _ Hdrop Hoff) as [Hb1 Hd1].
  rewrite (bind_run _ _ _ _ _ _ _
             (decodes_le_id 1 compat ltac:(simpl; lia)) Hb1 Hd1).
  destruct (drop_app_bound _ _ _ _ Hd1 Hb1) as [Hb2 Hd2].
  rewrite (proj2 (Z.ltb_ge 1 compat)) by lia.
  rewrite (bind_run _ _ _ _ _ _ _ (decodes_u32_length _ Hlen) Hb2 Hd2).
  destruct (drop_app_bound _ _ _ _ Hd2 Hb2) as [Hb3 Hd3].
  destruct (drop_app_bound _ _ _ _ Hd3 Hb3) as [Hb4 Hd4].
  destruct (drop_app_bound _ _ _ _ Hd4 Hb4) as [Hb5 Hd5].
  unfold encode_u8, encode_u32 in *. rewrite !length_le_bytes in *.
  unfold remaining, tell, get_remaining, get_off, bind at 1. simpl.
  assert (Hrem : (Z.of_nat (length bl - (off + 1 + 1 + 4))
                  <? Z.of_nat (length (payload ++ extra))) = false).
  { apply Z.ltb_ge. rewrite length_app. lia. }
  rewrite Hrem, Nat2Z.id. unfold bind at 1. cbn beta iota.
  rewrite (bind_run _ _ _ _ _ _ _ Hbody Hb3 Hd3).
  unfold bind at 1. cbn beta iota. cbn [it_off].
  rewrite length_app.
  rewrite (proj2 (Nat.ltb_ge _ _)) by lia.
  unfold bind, advance, ret. cbn [it_off it_bl].
  rewrite decide_True by lia.
  do 2 f_equal. lia.
Qed.

(** X10: a [Request] or [Response] struct of a later version, whose compat
    tag is still 1 (or lower) and whose payload has more bytes after the
    fields known here, decodes to the known fields, and the iterator ends
    after the whole struct. *)
Theorem decode_skips_appended_fields :
  (forall v compat (r : Request) extra rest,
     wf_Request r -> 0 <= compat <= 1 -> u32_length (2 + length extra) ->
     let bl := ENCODE v compat (encode_u16 (max_buckets r) ++ extra) ++ rest in
     decode_Request (begin bl) = (Ok r, Iterator bl (8 + length extra)))
  /\ (forall v compat (r : Response) extra rest,
     wf_Response r -> 0 <= compat <= 1 ->
     u32_length (length (encode_vector encode_BucketCounter (bucket_counters r))
                 + length extra) ->
     let payload := encode_vector encode_BucketCounter (bucket_counters r) in
     let bl := ENCODE v compat (payload ++ extra) ++ rest in
     decode_Response (begin bl)
     = (Ok r, Iterator bl (6 + length payload + length extra))).
Proof.
  split.
  - intros v compat r extra rest Hwf Hc Hlen bl. subst bl.
    unfold decode_Request.
    rewrite (decodes_begin _ _ r rest).
    + rewrite length_ENCODE, length_app. unfold encode_u16.
      by rewrite length_le_bytes.
    + apply decodes_DECODE_appended; [done| |].
      * rewrite length_app. unfold encode_u16. by rewrite length_le_bytes.
      * destruct r as [m]. apply (decodes_bind_ret decode_u16 mkRequest).
        by apply decodes_le_id.
  - intros v compat r extra rest (Hall & Hn & _) Hc Hlen payload bl.
    subst payload bl. unfold decode_Response.
    rewrite (decodes_begin _ _ r rest).
    + rewrite length_ENCODE, length_app. do 2 f_equal; lia.
    + apply decodes_DECODE_appended; [done|by rewrite length_app|].
      destruct r as [v']. apply (decodes_bind_ret _ mkResponse).
      apply decodes_vector; [done|].
      eapply Forall_impl; [exact Hall|]. apply decodes_BucketCounter.
Qed.

(** X11: the size of the encodings: a request takes 8 bytes, an entry 8 bytes
    and its bucket name, a response 10 bytes and its entries. *)
Theorem encoding_sizes :
  (forall r : Request, length (encode_Request r) = 8%nat)
  /\ (forall c : BucketCounter,
     length (encode_BucketCounter c) = (8 + String.length (bucket c))%nat)
  /\ (forall r : Response,
     length (encode_Response r) = (10 + entries_size (bucket_counters r))%nat).
Proof.
  split; [|split].
  - intros r. unfold encode_Request, encode_u16.
    by rewrite length_ENCODE, length_le_bytes.
  - apply length_encode_BucketCounter.
  - intros r. unfold encode_Response, encode_vector, encode_u32.
    rewrite length_ENCODE, length_app, length_le_bytes, length_concat_entries.
    lia.
Qed.

Lemma entries_size_le (L : nat) v :
  Forall (fun c => (String.length (bucket c) <= L)%nat) v ->
  (entries_size v <= length v * (8 + L))%nat.
Proof.
  unfold entries_size. induction 1 as [|c v Hc _ IH]; [done|].
  cbn [fmap list_fmap sum_list sum_list_with length] in *. unfold id in *. nia.
Qed.

End Compatibility.

(** * Further properties of the manager *)

Section ManagerEdges.
Context {R : Type} `{!Librados R} `{!Platform}.
Context `{!BoundedKeyCounter.EvictionPolicy}.

Import BucketTrimManager.

(** X12: the reply to a request is bounded whatever [max_buckets] asks for:
    when no bucket key in the counter is longer than [L], the handler writes
    at most [10 + 128 * (8 + L)] bytes. *)
Theorem reply_size_bounded (impl : Impl R) input output request input' (L : nat) :
  decode_Request input = (Ok request, input') ->
  (forall k v, BoundedKeyCounter.counters (counter impl) !! k = Some v ->
     (String.length k <= L)%nat) ->
  exists reply,
    Handler_handle impl input output = (Ok tt, input', output ++ reply)
    /\ (length reply <= 10 + 128 * (8 + L))%nat.
Proof.
  intros Hdec HL. pose proof (decode_Request_range _ _ _ Hdec) as [Hlo Hhi].
  unfold Handler_handle. rewrite Hdec. eexists. split; [done|].
  unfold encode_Response, encode_vector, encode_u32.
  rewrite length_ENCODE, length_app, length_le_bytes, length_concat_entries.
  cbn [bucket_counters].
  unfold get_bucket_counters, Impl_Server, Impl_get_bucket_counters. cbn [app].
  set (hi := BoundedKeyCounter.get_highest _ _).
  assert (Hlen : (length hi <= 128)%nat).
  { unfold hi. rewrite length_get_highest. lia. }
  assert (Hall : Forall (fun c => (String.length (bucket c) <= L)%nat)
                   ((fun kv => mkBucketCounter kv.1 kv.2) <$> hi)).
  { apply Forall_fmap, Forall_forall. intros [k v] Hin. simpl.
    apply elem_of_get_highest in Hin. by eapply HL. }
  pose proof (entries_size_le L _ Hall) as Hsize.
  rewrite length_fmap in Hsize. nia.
Qed.

(** X13: bucket changes never touch the watcher and [init] never touches the
    counter, so it makes no difference whether changes are recorded before
    or after [init]. *)
Theorem on_bucket_changed_independent_of_init (keys : list string) (impl : Impl R) :
  let record := fun i => foldl (fun i b => on_bucket_changed b i) i keys in
  watcher (record impl) = watcher impl
  /\ counter (init impl).2 = counter impl
  /\ init (record impl) = ((init impl).1, record (init impl).2).
Proof.
  cbv zeta beta.
  assert (Hrec : forall i : Impl R,
            foldl (fun i b => on_bucket_changed b i) i keys
            = mkImpl (record_all keys (counter i)) (watcher i)).
  { induction keys as [|k keys IH]; intros i; [by destruct i|].
    simpl. by rewrite IH. }
  rewrite !Hrec. unfold init. cbn [watcher counter].
  by destruct (BucketTrimWatcher.start (watcher impl)) as [r w].
Qed.

End ManagerEdges.

(** * Acknowledgements over the life of a watcher *)

Section Acknowledgements.
Context {R : Type} `{!Librados R} `{!Platform}.
Context {Srv : Type} `{!Server Srv}.

Import BucketTrimWatcher.

Lemma acks_start (w : t R) : acks (trace (start w).2) = acks (trace w).
Proof. store_cases; rewrite !acks_app; simpl; by rewrite ?app_nil_r. Qed.

Lemma acks_restart (w : t R) : acks (trace (restart w).2) = acks (trace w).
Proof. store_cases; rewrite !acks_app; simpl; by rewrite ?app_nil_r. Qed.

Lemma acks_stop (w : t R) : acks (trace (stop w)) = acks (trace w).
Proof. store_cases; rewrite !acks_app; simpl; by rewrite ?app_nil_r. Qed.

Lemma acks_handle_error cookie err (w : t R) :
  acks (trace (handle_error cookie err w)) = acks (trace w).
Proof.
  unfold handle_error. destruct (decide _); [done|].
  destruct (err =? - ENOTCONN); [apply acks_restart|done].
Qed.

Lemma acks_handle_notify (server : Srv) notify_id cookie notifier_id bl (w : t R) :
  (length (acks (trace (handle_notify server notify_id cookie notifier_id bl w)))
   <= length (acks (trace w)) + 1)%nat.
Proof.
  unfold handle_notify. destruct (decide _); [lia|].
  destruct (decode_TrimNotifyType (begin bl)) as [[type|e] p];
    [destruct (handlers w !! type) as [h|];
       [destruct (TrimNotifyHandler_handle h server p []) as [[[[]|e] p'] out]|]|];
    store_cases; rewrite !acks_app, ?length_app; simpl; lia.
Qed.

(** X14: every acknowledgement answers a notification: over any sequence of
    calls and callbacks, the watcher acknowledges at most as often as it was
    notified; [start], [restart], [stop] and [handle_error] acknowledge
    nothing. *)
Theorem acks_answer_notifications (server : Srv) (calls : list invocation) (w : t R) :
  (length (acks (trace (Life.run server calls w)))
   <= length (acks (trace w))
      + length (filter (fun i => is_notify i = true) calls))%nat.
Proof.
  revert w. induction calls as [|i calls IH]; intros w; [simpl; lia|].
  unfold Life.run in *. cbn [foldl]. etrans; [apply IH|].
  destruct i; cbn [Life.deliver].
  - rewrite acks_start, filter_cons_False by done. lia.
  - rewrite acks_restart, filter_cons_False by done. lia.
  - rewrite acks_stop, filter_cons_False by done. lia.
  - rewrite filter_cons_True by done. cbn [length].
    pose proof (acks_handle_notify server notify_id cookie notifier_id bl w). lia.
  - rewrite acks_handle_error, filter_cons_False by done. lia.
Qed.

End Acknowledgements.

(** ** The further statements at sample inputs *)

Section MoreWitnesses.

Import BucketTrimManager BucketTrimWatcher Samples.

Lemma start_returns_zero_or_error_witness :
  exists tr,
    trace (start (BucketTrimWatcher.new denied)).2 = [] ++ tr
    /\ (start (BucketTrimWatcher.new denied)).1 <= 0
    /\ last tr = Some Close.
Proof.
  destruct (start_returns_zero_or_error (BucketTrimWatcher.new denied))
    as (tr & Htr & Hr & _ & _ & Hclose & Hlast).
  exists tr. split; [exact Htr|]. split; [exact Hr|].
  apply Hlast, Hclose. split; vm_compute; [reflexivity|discriminate].
Defined.

Lemma stop_after_failed_start_witness :
  0 <= (get_raw_obj_ref (store (BucketTrimWatcher.new denied))).1
  /\ (start (BucketTrimWatcher.new denied)).1 < 0
  /\ exists pre,
      trace (stop (start (BucketTrimWatcher.new denied)).2)
      = [] ++ pre ++ [Close;
                      Unwatch2 (handle (start (BucketTrimWatcher.new denied)).2);
                      Close].
Proof.
  assert (Href : 0 <= (get_raw_obj_ref (store (BucketTrimWatcher.new denied))).1)
    by (vm_compute; discriminate).
  assert (Hfail : (start (BucketTrimWatcher.new denied)).1 < 0)
    by (vm_compute; reflexivity).
  exact (conj Href (conj Hfail
           (stop_after_failed_start (BucketTrimWatcher.new denied) Href Hfail))).
Defined.

Lemma handle_notify_serves_counters_witness :
  5 = handle watching
  /\ handlers watching !! NotifyTrimCounters = Some TrimCountersHandler
  /\ wf_Request (mkRequest 2)
  /\ trace (BucketTrimWatcher.handle_notify busy 41 5 0
              (encode_TrimNotifyType NotifyTrimCounters
                 ++ encode_Request (mkRequest 2) ++ [x00])
              watching)
     = trace watching
         ++ [InvokeHandler NotifyTrimCounters;
             NotifyAck 41 5
               (encode_Response
                  (mkResponse (get_bucket_counters busy (Z.min 2 128) [])))].
Proof.
  assert (Hc : 5 = handle watching) by reflexivity.
  assert (Hh : handlers watching !! NotifyTrimCounters = Some TrimCountersHandler)
    by (vm_compute; reflexivity).
  assert (Hwf : wf_Request (mkRequest 2))
    by (apply (bool_decide_unpack _); vm_compute; exact I).
  exact (conj Hc (conj Hh (conj Hwf
           (handle_notify_serves_counters busy 41 5 0 (mkRequest 2) [x00]
              watching Hc Hh Hwf)))).
Defined.

Lemma handle_notify_short_payload_witness :
  5 = handle watching
  /\ (length (@nil byte) < sizeof_TrimNotifyType)%nat
  /\ trace (BucketTrimWatcher.handle_notify busy 41 5 0 [] watching)
     = trace watching ++ [NotifyAck 41 5 []].
Proof.
  assert (Hc : 5 = handle watching) by reflexivity.
  assert (Hlen : (length (@nil byte) < sizeof_TrimNotifyType)%nat)
    by (vm_compute; lia).
  exact (conj Hc (conj Hlen
           (handle_notify_short_payload busy 41 5 0 [] watching Hc Hlen))).
Defined.

Lemma decode_BucketCounter_truncated_witness :
  wf_BucketCounter (mkBucketCounter "bucket" 7)
  /\ (9 < length (encode_BucketCounter (mkBucketCounter "bucket" 7)))%nat
  /\ (decode_BucketCounter
        (begin (take 9 (encode_BucketCounter (mkBucketCounter "bucket" 7))))).1
     = Throw MalformedMessageError.
Proof.
  assert (Hwf : wf_BucketCounter (mkBucketCounter "bucket" 7))
    by (apply (bool_decide_unpack _); vm_compute; exact I).
  assert (Hn : (9 < length (encode_BucketCounter (mkBucketCounter "bucket" 7)))%nat)
    by (vm_compute; lia).
  exact (conj Hwf (conj Hn
           (decode_BucketCounter_truncated (mkBucketCounter "bucket" 7) 9 Hwf Hn))).
Defined.

Lemma encodings_self_delimiting_witness :
  wf_BucketCounter (mkBucketCounter "a" 1)
  /\ (encode_BucketCounter (mkBucketCounter "a" 1) ++ [x01]
      = encode_BucketCounter (mkBucketCounter "a" 1) ++ [x01] ->
      mkBucketCounter "a" 1 = mkBucketCounter "a" 1 /\ [x01] = [x01]).
Proof.
  assert (Hwf : wf_BucketCounter (mkBucketCounter "a" 1))
    by (apply (bool_decide_unpack _); vm_compute; exact I).
  destruct encodings_self_delimiting as (Hbc & _ & _).
  exact (conj Hwf (Hbc _ _ [x01] [x01] Hwf Hwf)).
Defined.

Lemma decode_skips_appended_fields_witness :
  wf_Request (mkRequest 3)
  /\ 0 <= 1 <= 1
  /\ u32_length (2 + length [x07; x08])
  /\ decode_Request
       (begin (ENCODE 2 1 (encode_u16 3 ++ [x07; x08]) ++ [x09]))
     = (Ok (mkRequest 3),
        Iterator (ENCODE 2 1 (encode_u16 3 ++ [x07; x08]) ++ [x09])
                 (8 + length [x07; x08])).
Proof.
  assert (Hwf : wf_Request (mkRequest 3))
    by (apply (bool_decide_unpack _); vm_compute; exact I).
  assert (Hc : 0 <= 1 <= 1) by lia.
  assert (Hlen : u32_length (2 + length [x07; x08]))
    by (unfold u32_length; simpl; lia).
  destruct decode_skips_appended_fields as (Hreq & _).
  exact (conj Hwf (conj Hc (conj Hlen
           (Hreq 2 1 (mkRequest 3) [x07; x08] [x09] Hwf Hc Hlen)))).
Defined.

Lemma reply_size_bounded_witness :
  decode_Request (begin (encode_Request (mkRequest 65535)))
    = (Ok (mkRequest 65535), Iterator (encode_Request (mkRequest 65535)) 8)
  /\ exists reply,
      Handler_handle busy (begin (encode_Request (mkRequest 65535))) []
        = (Ok tt, Iterator (encode_Request (mkRequest 65535)) 8, [] ++ reply)
      /\ (length reply <= 10 + 128 * (8 + 1))%nat.
Proof.
  split; [reflexivity|].
  apply (reply_size_bounded busy _ [] (mkRequest 65535) _ 1%nat); [reflexivity|].
  intros k v Hk.
  assert (Hin : (k, v) ∈ map_to_list (BoundedKeyCounter.counters (counter busy)))
    by (by apply elem_of_map_to_list).
  set (l := map_to_list _) in Hin. vm_compute in l. subst l.
  rewrite !elem_of_cons, elem_of_nil in Hin.
  decompose [or] Hin; try contradiction;
    match goal with Heq : (k, v) = _ |- _ => injection Heq as -> _ end;
    vm_compute; lia.
Defined.

End MoreWitnesses.
